(** * Plane-stress transformation visualiser: model and properties

    A shallow embedding of the numeric core of the React application:
    [getPrincipalAngles] (App.jsx), [computeCurves] and the marker search of
    [render] (StressGraph.jsx), the smoothing ticks of [render] and [draw]
    (StressGraph.jsx, BodyOrientation.jsx), the stress transformation of
    [draw], the [derived] memo and the zoom/pan handlers of MohrsCircle.jsx,
    and [applyMin]/[applyMax] of ThetaRangeControl.jsx.

    JavaScript numbers are modelled as real numbers: every arithmetic
    operation is the exact one, so rounding, infinities and signed zeros are
    outside the model.  [NaN] appears only as the result of [parseFloat] and
    is modelled by [None].  Where rounding decides a property, the formula
    is evaluated a second time in binary64 (module [Doubles]), and the
    property says which arithmetic it is about. *)

From Stdlib Require Import Reals Lra Lia List ZArith String Bool.
From Stdlib Require PrimFloat.
Set Warnings "-inexact-float".
Import ListNotations.
Open Scope R_scope.

(** ** The host's [Math] object and numeric operators *)

Module JS.

Definition ltb (x y : R) : bool := if Rlt_dec x y then true else false.
Definition leb (x y : R) : bool := if Rle_dec x y then true else false.
Definition gtb (x y : R) : bool := ltb y x.
Definition geb (x y : R) : bool := leb y x.

Definition abs : R -> R := Rabs.
Definition min : R -> R -> R := Rmin.
Definition max : R -> R -> R := Rmax.

(** Rounding towards zero, as used by the remainder operator. *)
Definition trunc (x : R) : Z :=
  if Rle_dec 0 x then Int_part x else (- Int_part (- x))%Z.

(** [a % n]: the remainder takes the sign of the dividend. *)
Definition rem (a n : R) : R := a - n * IZR (trunc (a / n)).

(** [Math.atan2(y, x)], with [atan2(0, 0) = 0].  The model has one zero:
    for [x < 0] the host returns [-PI] at [y = -0] where this function
    returns [PI] at [y = 0]. *)
Definition atan2 (y x : R) : R :=
  if Rlt_dec 0 x then atan (y / x)
  else if Rlt_dec x 0 then
    (if Rle_dec 0 y then atan (y / x) + PI else atan (y / x) - PI)
  else if Rlt_dec 0 y then PI / 2
  else if Rlt_dec y 0 then - (PI / 2)
  else 0.

(** A function body either completes with a value or throws. *)
Inductive error : Type := TypeError.

Inductive completion (A : Type) : Type :=
| Normal (a : A)
| Throw (e : error).
Arguments Normal {A} a.
Arguments Throw {A} e.

Definition bind {A B : Type} (c : completion A) (k : A -> completion B)
  : completion B :=
  match c with
  | Normal a => k a
  | Throw e => Throw e
  end.

(** [x || d] on numbers: a zero is replaced by [d]. *)
Definition orElse (x d : R) : R := if Req_dec_T x 0 then d else x.

(** [Math.min(...l)] and [Math.max(...l)].  The call without arguments
    yields an infinity, which is outside the model: [None]. *)
Definition minOf (l : list R) : option R :=
  match l with
  | [] => None
  | x :: rest => Some (fold_left Rmin rest x)
  end.

Definition maxOf (l : list R) : option R :=
  match l with
  | [] => None
  | x :: rest => Some (fold_left Rmax rest x)
  end.

End JS.

Notation "x <- c ;; k" := (JS.bind c (fun x => k))
  (at level 61, c at next level, right associativity).

(** ** App.jsx *)

Module App.

(** The constant [angle] of [getPrincipalAngles]. *)
Definition principalAngle (sigmaX sigmaY tauXY : R) : R :=
  let diff := sigmaX - sigmaY in
  0.5 * JS.atan2 (2 * tauXY) diff * 180 / PI.

(** The arrow function [a => ((a % 180) + 180) % 180], with exact remainders
    and an exact sum; in binary64 the sum is rounded. *)
Definition normalize180 (a : R) : R := JS.rem (JS.rem a 180 + 180) 180.

(** [null] is [None]. *)
Definition getPrincipalAngles (sigmaX sigmaY tauXY : R) : option (list R) :=
  let diff := sigmaX - sigmaY in
  if JS.ltb (JS.abs diff) 1e-9 && JS.ltb (JS.abs tauXY) 1e-9 then None
  else
    let angle := principalAngle sigmaX sigmaY tauXY in
    Some (map normalize180 [angle; angle + 90]).

Definition getMaxShear (sigmaX sigmaY tauXY : R) : R :=
  sqrt (((sigmaX - sigmaY) / 2) ^ 2 + tauXY ^ 2).

(** Initial values of the [thetaMin] and [thetaMax] state cells. *)
Definition initialThetaMin : R := 0.
Definition initialThetaMax : R := 180.

(** *** The parameter state of [App] *)

Record param : Type := { value : R; min : R; max : R; step : R }.

Record params : Type := { sigmaX : param; sigmaY : param; tauXY : param }.

Definition INITIAL : params :=
  {| sigmaX := {| value := 80; min := -200; max := 200; step := 1 |};
     sigmaY := {| value := -40; min := -200; max := 200; step := 1 |};
     tauXY := {| value := 50; min := -200; max := 200; step := 1 |} |}.

Record preset : Type := { name : string; sx : R; sy : R; txy : R }.

Definition PRESETS : list preset :=
  [ {| name := "Default"; sx := 80; sy := -40; txy := 50 |};
    {| name := "Uniaxial"; sx := 100; sy := 0; txy := 0 |};
    {| name := "Biaxial"; sx := 80; sy := 40; txy := 0 |};
    {| name := "Pure Shear"; sx := 0; sy := 0; txy := 60 |};
    {| name := "Equal Biax"; sx := 60; sy := 60; txy := 0 |} ]%string.

Inductive key : Type := KeySigmaX | KeySigmaY | KeyTauXY.

(** The object handed to [onChange] by a slider: it always carries the three
    fields [min], [max] and [value]. *)
Record patch : Type := { patchMin : R; patchMax : R; patchValue : R }.

(** [{ ...prev[key], ...patch }]. *)
Definition merge (p : param) (q : patch) : param :=
  {| value := patchValue q; min := patchMin q; max := patchMax q;
     step := step p |}.

Definition lookup (k : key) (ps : params) : param :=
  match k with
  | KeySigmaX => sigmaX ps
  | KeySigmaY => sigmaY ps
  | KeyTauXY => tauXY ps
  end.

Definition update (k : key) (q : patch) (prev : params) : params :=
  match k with
  | KeySigmaX =>
      {| sigmaX := merge (sigmaX prev) q; sigmaY := sigmaY prev;
         tauXY := tauXY prev |}
  | KeySigmaY =>
      {| sigmaX := sigmaX prev; sigmaY := merge (sigmaY prev) q;
         tauXY := tauXY prev |}
  | KeyTauXY =>
      {| sigmaX := sigmaX prev; sigmaY := sigmaY prev;
         tauXY := merge (tauXY prev) q |}
  end.

(** [applyPreset]: the new parameters, and the rotation angle set to 0. *)
Definition applyPreset (p : preset) : params * R :=
  ({| sigmaX := {| value := sx p; min := min (sigmaX INITIAL);
                   max := max (sigmaX INITIAL); step := step (sigmaX INITIAL) |};
      sigmaY := {| value := sy p; min := min (sigmaY INITIAL);
                   max := max (sigmaY INITIAL); step := step (sigmaY INITIAL) |};
      tauXY := {| value := txy p; min := min (tauXY INITIAL);
                  max := max (tauXY INITIAL); step := step (tauXY INITIAL) |} |},
   0).

(** The derived values shown in the sidebar. *)
Definition avg (ps : params) : R :=
  (value (sigmaX ps) + value (sigmaY ps)) / 2.

Definition tauMax (ps : params) : R :=
  getMaxShear (value (sigmaX ps)) (value (sigmaY ps)) (value (tauXY ps)).

Definition sigma1 (ps : params) : R := avg ps + tauMax ps.

Definition sigma2 (ps : params) : R := avg ps - tauMax ps.

Definition principals (ps : params) : option (list R) :=
  getPrincipalAngles (value (sigmaX ps)) (value (sigmaY ps))
    (value (tauXY ps)).

End App.

(** ** ParameterSlider.jsx *)

Module ParameterSlider.

(** The strings ['min'] and ['max'] passed to [handleRangeChange]. *)
Inductive field : Type := FieldMin | FieldMax.

Definition pct (value min max : R) : R := ((value - min) / (max - min)) * 100.

Section Host.

Variable parseFloat : string -> option R.

(** The patch handed to [onChange], or [None] when [onChange] is not
    called. *)
Definition handleRangeChange (value min max : R) (f : field) (raw : string)
  : option App.patch :=
  match parseFloat raw with
  | None => None
  | Some parsed =>
      match f with
      | FieldMin =>
          if JS.ltb parsed max
          then Some {| App.patchMin := parsed; App.patchMax := max;
                       App.patchValue := JS.max value parsed |}
          else None
      | FieldMax =>
          if JS.gtb parsed min
          then Some {| App.patchMin := min; App.patchMax := parsed;
                       App.patchValue := JS.min value parsed |}
          else None
      end
  end.

(** The [onChange] of the range input; [v] is the number it reports. *)
Definition sliderChange (min max : R) (v : R) : App.patch :=
  {| App.patchMin := min; App.patchMax := max; App.patchValue := v |}.

(** The events of one slider as seen by [App]. *)
Inductive event : Type :=
| RangeEdit (k : App.key) (f : field) (raw : string)
| SliderInput (k : App.key) (v : R)
| Preset (p : App.preset).

Definition handle (e : event) (ps : App.params) : App.params :=
  match e with
  | RangeEdit k f raw =>
      let p := App.lookup k ps in
      match handleRangeChange (App.value p) (App.min p) (App.max p) f raw with
      | Some q => App.update k q ps
      | None => ps
      end
  | SliderInput k v =>
      let p := App.lookup k ps in
      App.update k (sliderChange (App.min p) (App.max p) v) ps
  | Preset p => fst (App.applyPreset p)
  end.

End Host.

End ParameterSlider.

(** ** StressGraph.jsx *)

Module StressGraph.

Definition DEG2RAD : R := PI / 180.

Record point : Type := { theta : R; value : R }.

Record curves : Type :=
  { sigmaPoints : list point; tauPoints : list point }.

(** The body of the sampling loop at index [i].  For [steps = 0] the source
    divides 0 by 0 and the angle is [NaN], which the number model does not
    contain: the definition stands for the source for [1 <= steps] only. *)
Definition sampleTheta (thetaMin thetaMax : R) (steps i : nat) : R :=
  thetaMin + (INR i / INR steps) * (thetaMax - thetaMin).

Definition sigmaAt (sigmaX sigmaY tauXY theta : R) : R :=
  let rad := theta * DEG2RAD in
  let avg := (sigmaX + sigmaY) / 2 in
  let diff := (sigmaX - sigmaY) / 2 in
  avg + diff * cos (2 * rad) + tauXY * sin (2 * rad).

Definition tauAt (sigmaX sigmaY tauXY theta : R) : R :=
  let rad := theta * DEG2RAD in
  let diff := (sigmaX - sigmaY) / 2 in
  - diff * sin (2 * rad) + tauXY * cos (2 * rad).

(** [for (let i = 0; i <= steps; i++)]: the indices are [0 .. steps].  The
    body has no [throw] and no range test, so the completion is always
    [Normal]. *)
Definition computeCurves (sigmaX sigmaY tauXY thetaMin thetaMax : R)
    (steps : nat) : JS.completion curves :=
  let idx := seq 0 (S steps) in
  JS.Normal
    {| sigmaPoints :=
         map (fun i =>
                let theta := sampleTheta thetaMin thetaMax steps i in
                {| theta := theta;
                   value := sigmaAt sigmaX sigmaY tauXY theta |}) idx;
       tauPoints :=
         map (fun i =>
                let theta := sampleTheta thetaMin thetaMax steps i in
                {| theta := theta;
                   value := tauAt sigmaX sigmaY tauXY theta |}) idx |}.

(** The default value of the [steps] parameter. *)
Definition defaultSteps : nat := 500.

(** *** Smoothing of the displayed parameters *)

Definition lerp (a b t : R) : R := a + (b - a) * t.

Definition SPEED : R := 0.12.

Record params : Type := { sigmaX : R; sigmaY : R; tauXY : R }.

(** The first statements of [render]: the displayed triple moves towards
    the target triple. *)
Definition smooth (d t : params) : params :=
  {| sigmaX := lerp (sigmaX d) (sigmaX t) SPEED;
     sigmaY := lerp (sigmaY d) (sigmaY t) SPEED;
     tauXY := lerp (tauXY d) (tauXY t) SPEED |}.

Fixpoint smoothN (n : nat) (d t : params) : params :=
  match n with
  | O => d
  | S n' => smoothN n' (smooth d t) t
  end.

(** *** Principal-stress markers *)

(** The closures [xScale] and [yScale] of [render]. *)
Definition xScale (padL thetaMin thetaMax plotW : R) (theta : R) : R :=
  padL + ((theta - thetaMin) / (thetaMax - thetaMin)) * plotW.

Definition yScale (padT yMin yMax plotH : R) (v : R) : R :=
  padT + (1 - (v - yMin) / (yMax - yMin)) * plotH.

(** A marker is the circle drawn at [(mx, my)] together with the vertical
    line at [mx]. *)
Record marker : Type := { mx : R; my : R }.

Definition tCrossOf (a b : point) : R :=
  theta a + (0 - value a) / (value b - value a) * (theta b - theta a).

Definition sValOf (s0 s1 : point) (tCross : R) : R :=
  value s0 + (tCross - theta s0) / (theta s1 - theta s0)
             * (value s1 - value s0).

Definition crosses (a b : point) : bool :=
  JS.leb (value a * value b) 0 && JS.gtb (JS.abs (value a - value b)) 1e-9.

(** Reading a property of [undefined] throws a [TypeError]. *)
Definition index (pts : list point) (i : nat) : JS.completion point :=
  match nth_error pts i with
  | Some p => JS.Normal p
  | None => JS.Throw JS.TypeError
  end.

(** One iteration of the marker loop. *)
Definition markerAt (xS yS : R -> R) (sigmaPoints tauPoints : list point)
    (i : nat) : JS.completion (list marker) :=
  a <- index tauPoints i ;;
  b <- index tauPoints (S i) ;;
  if crosses a b then
    let tCross := tCrossOf a b in
    s0 <- index sigmaPoints i ;;
    s1 <- index sigmaPoints (S i) ;;
    let sVal := sValOf s0 s1 tCross in
    JS.Normal [ {| mx := xS tCross; my := yS sVal |} ]
  else JS.Normal [].

Fixpoint markerLoop (xS yS : R -> R) (sigmaPoints tauPoints : list point)
    (idx : list nat) (markers : list marker)
    : JS.completion (list marker) :=
  match idx with
  | [] => JS.Normal markers
  | i :: rest =>
      m <- markerAt xS yS sigmaPoints tauPoints i ;;
      markerLoop xS yS sigmaPoints tauPoints rest (markers ++ m)
  end.

(** [for (let i = 0; i < tauPoints.length - 1; i++)]. *)
Definition principalMarkers (xS yS : R -> R)
    (sigmaPoints tauPoints : list point) : JS.completion (list marker) :=
  markerLoop xS yS sigmaPoints tauPoints
    (seq 0 (List.length tauPoints - 1)) [].

(** *** Axis scaling of [render] *)

Definition padL : R := 62.
Definition padR : R := 28.
Definition padT : R := 28.
Definition padB : R := 48.

Definition plotW (W : R) : R := W - padL - padR.
Definition plotH (H : R) : R := H - padT - padB.

(** [[...sigmaPoints.map(p => p.value), ...tauPoints.map(p => p.value)]]. *)
Definition allValues (c : curves) : list R :=
  map value (sigmaPoints c) ++ map value (tauPoints c).

Record axis : Type := { yMin : R; yMax : R }.

(** [rawMin], [rawMax], [range], [pad], [yMin] and [yMax] of [render]. *)
Definition autoScale (values : list R) : option axis :=
  match JS.minOf values, JS.maxOf values with
  | Some rawMin, Some rawMax =>
      let range := JS.orElse (rawMax - rawMin) 1 in
      let pad := range * 0.12 in
      Some {| yMin := rawMin - pad; yMax := rawMax + pad |}
  | _, _ => None
  end.

End StressGraph.

(** ** BodyOrientation.jsx *)

Module BodyOrientation.

Definition DEG2RAD : R := PI / 180.

(** The first statements of [draw]: the displayed angle moves towards the
    target and snaps onto it once the gap is below [0.01]. *)
Definition lerpTheta (displayTheta targetTheta : R) : R :=
  let dt := targetTheta - displayTheta in
  let displayTheta' := displayTheta + dt * 0.14 in
  if JS.ltb (JS.abs dt) 0.01 then targetTheta else displayTheta'.

Fixpoint lerpThetaN (n : nat) (displayTheta targetTheta : R) : R :=
  match n with
  | O => displayTheta
  | S n' => lerpThetaN n' (lerpTheta displayTheta targetTheta) targetTheta
  end.

Record transformed : Type :=
  { sigma_x_prime : R; sigma_y_prime : R; tau_prime : R }.

(** The transformed stresses computed by [draw] at the displayed angle. *)
Definition transform (sigmaX sigmaY tauXY displayTheta : R) : transformed :=
  let rad := displayTheta * DEG2RAD in
  let avg := (sigmaX + sigmaY) / 2 in
  let diff := (sigmaX - sigmaY) / 2 in
  {| sigma_x_prime := avg + diff * cos (2 * rad) + tauXY * sin (2 * rad);
     sigma_y_prime := avg - diff * cos (2 * rad) - tauXY * sin (2 * rad);
     tau_prime := - diff * sin (2 * rad) + tauXY * cos (2 * rad) |}.

(** *** Drag to rotate *)

(** [dragStart.current = { x, theta }]. *)
Record drag : Type := { dragX : R; dragTheta : R }.

(** The [theta] prop, owned by [App], and the [dragStart] ref. *)
Record pointer : Type := { theta : R; dragStart : option drag }.

Definition handleMouseDown (clientX : R) (s : pointer) : pointer :=
  {| theta := theta s;
     dragStart := Some {| dragX := clientX; dragTheta := theta s |} |}.

Definition handleMouseMove (clientX : R) (s : pointer) : pointer :=
  match dragStart s with
  | None => s
  | Some d =>
      let dx := clientX - dragX d in
      let newTheta := JS.max 0 (JS.min 180 (dragTheta d + dx * 0.5)) in
      {| theta := newTheta; dragStart := dragStart s |}
  end.

Definition handleMouseUp (s : pointer) : pointer :=
  {| theta := theta s; dragStart := None |}.

Inductive event : Type :=
| MouseDown (clientX : R)
| MouseMove (clientX : R)
| MouseUp
| MouseLeave.

Definition handle (e : event) (s : pointer) : pointer :=
  match e with
  | MouseDown x => handleMouseDown x s
  | MouseMove x => handleMouseMove x s
  | MouseUp | MouseLeave => handleMouseUp s
  end.

Definition run (es : list event) (s : pointer) : pointer :=
  fold_left (fun s e => handle e s) es s.

(** *** Stress arrows *)

Definition side (W H : R) : R := JS.min W H * 0.3.

(** [Math.max(|sigma_x_prime|, |sigma_y_prime|, |tau_prime|, 1)]. *)
Definition maxStress (t : transformed) : R :=
  JS.max (JS.max (JS.max (JS.abs (sigma_x_prime t))
                         (JS.abs (sigma_y_prime t)))
                 (JS.abs (tau_prime t)))
         1.

Definition arrowScale (W H : R) (t : transformed) : R :=
  (side W H * 0.55) / maxStress t.

(** A drawn arrow: from the face point [(fx, fy)] to the tip [(ex, ey)], the
    head turned by [angle]. *)
Record arrow : Type := { fx : R; fy : R; ex : R; ey : R; angle : R }.

Definition drawNormalArrow (fx fy sigma scale : R) (isHorizontalFace : bool)
  : arrow :=
  let len := sigma * scale in
  if isHorizontalFace then
    {| fx := fx; fy := fy; ex := fx + len; ey := fy;
       angle := if JS.geb len 0 then 0 else PI |}
  else
    {| fx := fx; fy := fy; ex := fx; ey := fy - len;
       angle := if JS.geb len 0 then - PI / 2 else PI / 2 |}.

Definition drawShearArrow (fx fy tau scale : R) (isHorizontalFace : bool)
  : arrow :=
  let len := tau * scale in
  if isHorizontalFace then
    {| fx := fx; fy := fy; ex := fx; ey := fy + len;
       angle := if JS.geb len 0 then PI / 2 else - PI / 2 |}
  else
    {| fx := fx; fy := fy; ex := fx + len; ey := fy;
       angle := if JS.geb len 0 then 0 else PI |}.

(** The eight arrows of [draw], in the order of the source: right, left, top
    and bottom face, the normal arrow before the shear arrow. *)
Definition arrows (W H : R) (t : transformed) : list arrow :=
  let arrowScale := arrowScale W H t in
  let MID := side W H / 2 in
  [ drawNormalArrow MID 0 (sigma_x_prime t) arrowScale true;
    drawShearArrow MID 0 (tau_prime t) arrowScale true;
    drawNormalArrow (- MID) 0 (- sigma_x_prime t) arrowScale true;
    drawShearArrow (- MID) 0 (- tau_prime t) arrowScale true;
    drawNormalArrow 0 (- MID) (sigma_y_prime t) arrowScale false;
    drawShearArrow 0 (- MID) (- tau_prime t) arrowScale false;
    drawNormalArrow 0 MID (- sigma_y_prime t) arrowScale false;
    drawShearArrow 0 MID (tau_prime t) arrowScale false ].

End BodyOrientation.

(** ** MohrsCircle.jsx *)

Module MohrsCircle.

Definition toRad (deg : R) : R := (deg * PI) / 180.

Record derivedValues : Type :=
  { avg : R; diff : R; R_ : R; sx_prime : R; txy_prime : R;
    s1 : R; s2 : R; thetaP1 : R; thetaP2 : R; thetaS1 : R }.

(** The [derived] memo.  Every field is a number: there is no test on
    [diff] or [tauXY] before [atan2] is called. *)
Definition derived (sigmaX sigmaY tauXY theta : R) : derivedValues :=
  let avg := (sigmaX + sigmaY) / 2 in
  let diff := (sigmaX - sigmaY) / 2 in
  let R := sqrt (diff * diff + tauXY * tauXY) in
  let angle2 := toRad (2 * theta) in
  let sx_prime := avg + diff * cos angle2 + tauXY * sin angle2 in
  let txy_prime := - diff * sin angle2 + tauXY * cos angle2 in
  let s1 := avg + R in
  let s2 := avg - R in
  let thetaP1 := (JS.atan2 tauXY diff * 180) / PI / 2 in
  let thetaP2 := thetaP1 + 90 in
  let thetaS1 := thetaP1 - 45 in
  {| avg := avg; diff := diff; R_ := R; sx_prime := sx_prime;
     txy_prime := txy_prime; s1 := s1; s2 := s2; thetaP1 := thetaP1;
     thetaP2 := thetaP2; thetaS1 := thetaS1 |}.

(** *** Zoom and pan *)

Record panOrigin : Type := { mx : R; my : R; px : R; py : R }.

Record viewport : Type :=
  { zoom : R; panX : R; panY : R; isPanning : bool; panStart : panOrigin }.

(** [useState(1.6)], [useState({ x: 0, y: 0 })] and the two refs. *)
Definition initial : viewport :=
  {| zoom := 1.6; panX := 0; panY := 0; isPanning := false;
     panStart := {| mx := 0; my := 0; px := 0; py := 0 |} |}.

Definition setZoom (f : R -> R) (v : viewport) : viewport :=
  {| zoom := f (zoom v); panX := panX v; panY := panY v;
     isPanning := isPanning v; panStart := panStart v |}.

Definition setPan (x y : R) (v : viewport) : viewport :=
  {| zoom := zoom v; panX := x; panY := y;
     isPanning := isPanning v; panStart := panStart v |}.

Definition handleWheel (deltaY : R) (v : viewport) : viewport :=
  let factor := if JS.ltb deltaY 0 then 1.12 else 1 / 1.12 in
  setZoom (fun z => JS.min (JS.max (z * factor) 0.4) 8) v.

Definition handleMouseDown (clientX clientY : R) (v : viewport) : viewport :=
  {| zoom := zoom v; panX := panX v; panY := panY v; isPanning := true;
     panStart := {| mx := clientX; my := clientY;
                    px := panX v; py := panY v |} |}.

Definition handleMouseMove (clientX clientY : R) (v : viewport) : viewport :=
  if negb (isPanning v) then v
  else setPan (px (panStart v) + (clientX - mx (panStart v)))
              (py (panStart v) + (clientY - my (panStart v))) v.

Definition handleMouseUp (v : viewport) : viewport :=
  {| zoom := zoom v; panX := panX v; panY := panY v; isPanning := false;
     panStart := panStart v |}.

Definition handleDblClick (v : viewport) : viewport :=
  setPan 0 0 (setZoom (fun _ => 1) v).

(** The [onClick] handlers of the two zoom buttons. *)
Definition zoomInClick (v : viewport) : viewport :=
  setZoom (fun z => JS.min (z * 1.25) 8) v.

Definition zoomOutClick (v : viewport) : viewport :=
  setZoom (fun z => JS.max (z / 1.25) 0.4) v.

Inductive event : Type :=
| Wheel (deltaY : R)
| MouseDown (clientX clientY : R)
| MouseMove (clientX clientY : R)
| MouseUp
| MouseLeave
| DoubleClick
| ClickZoomIn
| ClickZoomOut
| ClickReset.

Definition handle (e : event) (v : viewport) : viewport :=
  match e with
  | Wheel deltaY => handleWheel deltaY v
  | MouseDown x y => handleMouseDown x y v
  | MouseMove x y => handleMouseMove x y v
  | MouseUp | MouseLeave => handleMouseUp v
  | DoubleClick | ClickReset => handleDblClick v
  | ClickZoomIn => zoomInClick v
  | ClickZoomOut => zoomOutClick v
  end.

(** The viewport after a sequence of events, oldest first. *)
Definition run (es : list event) (v : viewport) : viewport :=
  fold_left (fun v e => handle e v) es v.

(** *** Circle geometry *)

Definition W : R := 900.
Definition H : R := 820.
Definition cx : R := W / 2.
Definition cy : R := H / 2.

(** The [transform] attribute of the group that holds the drawing,
    [translate(W/2 + pan.x, H/2 + pan.y) scale(zoom) translate(-W/2, -H/2)]:
    where a point of the drawing appears in the view box. *)
Definition screenX (v : viewport) (x : R) : R :=
  W / 2 + panX v + zoom v * (x - W / 2).

Definition screenY (v : viewport) (y : R) : R :=
  H / 2 + panY v + zoom v * (y - H / 2).

Section Geometry.

(** The props of the component. *)
Variables sigmaX sigmaY tauXY theta : R.

Definition maxVal : R :=
  JS.max (JS.max (JS.max (JS.abs sigmaX) (JS.abs sigmaY)) (JS.abs tauXY)) 1.

Definition scale : R :=
  (JS.min W H / 2 - 80)
  / (maxVal + R_ (derived sigmaX sigmaY tauXY theta) + 10).

Definition clampedScale : R := JS.min (JS.max scale 0.5) 8.

Definition toSvgX (v : R) : R := cx + v * clampedScale.
Definition toSvgY (v : R) : R := cy - v * clampedScale.

Definition circleCX : R := toSvgX (avg (derived sigmaX sigmaY tauXY theta)).
Definition circleCY : R := toSvgY 0.
Definition circleR : R :=
  R_ (derived sigmaX sigmaY tauXY theta) * clampedScale.

Definition angle2 : R := toRad (2 * theta).

Definition alpha_A : R :=
  JS.atan2 (- tauXY)
    (JS.orElse (diff (derived sigmaX sigmaY tauXY theta)) 0).

Definition aX : R := circleCX + circleR * cos alpha_A.
Definition aY : R := circleCY - circleR * sin alpha_A.

Definition liveAngle : R := alpha_A - angle2.
Definition pointX : R := circleCX + circleR * cos liveAngle.
Definition pointY : R := circleCY - circleR * sin liveAngle.

Definition conjX : R := circleCX + circleR * cos (liveAngle + PI).
Definition conjY : R := circleCY - circleR * sin (liveAngle + PI).

Definition p1X : R := circleCX + circleR.
Definition p1Y : R := circleCY.
Definition p2X : R := circleCX - circleR.
Definition p2Y : R := circleCY.

Definition topShearX : R := circleCX.
Definition topShearY : R := circleCY - circleR.
Definition botShearX : R := circleCX.
Definition botShearY : R := circleCY + circleR.

(** The flags of the two arcs, [1] as [true]. *)
Definition largeArc : bool := JS.gtb (JS.abs (2 * theta)) 180.
Definition sweepArc : bool := JS.geb theta 0.

Definition arcP_large : bool :=
  JS.gtb (JS.abs (2 * thetaP1 (derived sigmaX sigmaY tauXY theta))) 180.
Definition arcP_sweep : bool :=
  if JS.geb (thetaP1 (derived sigmaX sigmaY tauXY theta)) 0
  then false else true.

End Geometry.

End MohrsCircle.

(** ** ThetaRangeControl.jsx *)

Module ThetaRangeControl.

(** The angle range owned by [App] together with the local state of the
    control. *)
Record state : Type :=
  { thetaMin : R; thetaMax : R;
    editMin : bool; editMax : bool;
    localMin : string; localMax : string }.

Section Host.

(** The host's [parseFloat] ([None] is [NaN]) and [String]. *)
Variable parseFloat : string -> option R.
Variable toString : R -> string.

Definition onChangeThetaMin (v : R) (s : state) : state :=
  {| thetaMin := v; thetaMax := thetaMax s;
     editMin := editMin s; editMax := editMax s;
     localMin := localMin s; localMax := localMax s |}.

Definition onChangeThetaMax (v : R) (s : state) : state :=
  {| thetaMin := thetaMin s; thetaMax := v;
     editMin := editMin s; editMax := editMax s;
     localMin := localMin s; localMax := localMax s |}.

Definition applyMin (raw : string) (s : state) : state :=
  match parseFloat raw with
  | Some v => if JS.ltb v (thetaMax s) then onChangeThetaMin v s else s
  | None => s
  end.

Definition applyMax (raw : string) (s : state) : state :=
  match parseFloat raw with
  | Some v => if JS.gtb v (thetaMin s) then onChangeThetaMax v s else s
  | None => s
  end.

Definition setEditMin (b : bool) (s : state) : state :=
  {| thetaMin := thetaMin s; thetaMax := thetaMax s;
     editMin := b; editMax := editMax s;
     localMin := localMin s; localMax := localMax s |}.

Definition setEditMax (b : bool) (s : state) : state :=
  {| thetaMin := thetaMin s; thetaMax := thetaMax s;
     editMin := editMin s; editMax := b;
     localMin := localMin s; localMax := localMax s |}.

Definition setLocalMin (t : string) (s : state) : state :=
  {| thetaMin := thetaMin s; thetaMax := thetaMax s;
     editMin := editMin s; editMax := editMax s;
     localMin := t; localMax := localMax s |}.

Definition setLocalMax (t : string) (s : state) : state :=
  {| thetaMin := thetaMin s; thetaMax := thetaMax s;
     editMin := editMin s; editMax := editMax s;
     localMin := localMin s; localMax := t |}.

Inductive event : Type :=
| ClickMin
| ChangeMin (text : string)
| BlurMin
| KeyDownMin (key : string)
| ClickMax
| ChangeMax (text : string)
| BlurMax
| KeyDownMax (key : string).

(** The inputs exist only while their edit flag is set. *)
Definition handle (e : event) (s : state) : state :=
  match e with
  | ClickMin =>
      if editMin s then s
      else setEditMin true (setLocalMin (toString (thetaMin s)) s)
  | ChangeMin text => if editMin s then setLocalMin text s else s
  | BlurMin =>
      if editMin s then setEditMin false (applyMin (localMin s) s) else s
  | KeyDownMin key =>
      if editMin s && String.eqb key "Enter"%string
      then setEditMin false (applyMin (localMin s) s) else s
  | ClickMax =>
      if editMax s then s
      else setEditMax true (setLocalMax (toString (thetaMax s)) s)
  | ChangeMax text => if editMax s then setLocalMax text s else s
  | BlurMax =>
      if editMax s then setEditMax false (applyMax (localMax s) s) else s
  | KeyDownMax key =>
      if editMax s && String.eqb key "Enter"%string
      then setEditMax false (applyMax (localMax s) s) else s
  end.

Definition run (es : list event) (s : state) : state :=
  fold_left (fun s e => handle e s) es s.

(** The control as first mounted by [App]. *)
Definition initial : state :=
  {| thetaMin := App.initialThetaMin; thetaMax := App.initialThetaMax;
     editMin := false; editMax := false;
     localMin := toString App.initialThetaMin;
     localMax := toString App.initialThetaMax |}.

End Host.

End ThetaRangeControl.

(** ** The formulas in IEEE doubles *)

Module Doubles.

Import PrimFloat.

Record transformed : Type :=
  { sigma_x_prime : float; sigma_y_prime : float; tau_prime : float }.

(** The transformed stresses of [draw] in binary64; [c] and [s] are the
    values returned by [Math.cos(2 * rad)] and [Math.sin(2 * rad)]. *)
Definition transform (c s sigmaX sigmaY tauXY : float) : transformed :=
  (let avg := (sigmaX + sigmaY) / 2 in
   let diff := (sigmaX - sigmaY) / 2 in
   {| sigma_x_prime := avg + diff * c + tauXY * s;
      sigma_y_prime := avg - diff * c - tauXY * s;
      tau_prime := - diff * s + tauXY * c |})%float.

(** By how much the sum of the transformed normal stresses misses the sum
    of the reference normal stresses. *)
Definition traceError (c s sigmaX sigmaY tauXY : float) : float :=
  (let t := transform c s sigmaX sigmaY tauXY in
   (sigma_x_prime t + sigma_y_prime t) - (sigmaX + sigmaY))%float.

(** [lerp] and [SPEED] of [render] in binary64, and [n] ticks of one
    displayed component towards a fixed target. *)
Definition lerp (a b t : float) : float := (a + (b - a) * t)%float.

Definition SPEED : float := 0.12%float.

Fixpoint lerpN (n : nat) (d t : float) : float :=
  match n with
  | O => d
  | S n' => lerpN n' (lerp d t SPEED) t
  end.

(** [x % 180] in binary64 for [|x| < 540], which covers every remainder
    that [getPrincipalAngles] takes.  The remainder keeps the sign of the
    dividend and is exact: below 180 it is [x] itself, and from there on it
    differs from [|x|] by 180 or 360, a difference that binary64 represents
    exactly.  Beyond that range the function gives no answer. *)
Definition rem180 (x : float) : option float :=
  (let m := abs x in
   if ltb m 180 then Some x
   else if ltb m 360 then Some (if ltb x 0 then - (m - 180) else m - 180)
   else if ltb m 540 then Some (if ltb x 0 then - (m - 360) else m - 360)
   else None)%float.

(** The arrow function [a => ((a % 180) + 180) % 180] in binary64. *)
Definition normalize180 (a : float) : option float :=
  match rem180 a with
  | Some r => rem180 (r + 180)%float
  | None => None
  end.

End Doubles.

(** ** Vocabulary of the properties *)

Module Spec.

(** Two angles in degrees that denote the same orientation. *)
Definition eqmod180 (x y : R) : Prop := exists k : Z, x - y = 180 * IZR k.

(** The guard of [getPrincipalAngles]. *)
Definition degenerate (sigmaX sigmaY tauXY : R) : Prop :=
  Rabs (sigmaX - sigmaY) < 1e-9 /\ Rabs tauXY < 1e-9.

(** [x] lies on the segment from [a] to [b], whichever is larger. *)
Definition between (a b x : R) : Prop :=
  (a <= x <= b) \/ (b <= x <= a).

Definition zoomInRange (z : R) : Prop := 0.4 <= z <= 8.



(** *** Zero crossings of the sampled shear curve *)

Import StressGraph.

(** The interpolation fraction of the crossing between two samples. *)
Definition fraction (a b : point) : R :=
  (0 - value a) / (value b - value a).

(** The marker search as a recursion over adjacent pairs, with the
    formulas of the source. *)
Fixpoint markersOf (xS yS : R -> R) (sigmaPoints tauPoints : list point)
    {struct tauPoints} : list marker :=
  match tauPoints, sigmaPoints with
  | a :: tauRest, s0 :: sigmaRest =>
      match tauRest, sigmaRest with
      | b :: _, s1 :: _ =>
          (if crosses a b
           then [ {| mx := xS (tCrossOf a b);
                     my := yS (sValOf s0 s1 (tCrossOf a b)) |} ]
           else [])
          ++ markersOf xS yS sigmaRest tauRest
      | _, _ => []
      end
  | _, _ => []
  end.

(** The markers the search is meant to report: one per adjacent pair whose
    product is non-positive and whose gap exceeds [1e-9], at the
    interpolated angle, with sigma interpolated by the same fraction. *)
Fixpoint expectedMarkers (xS yS : R -> R)
    (sigmaPoints tauPoints : list point) {struct tauPoints} : list marker :=
  match tauPoints, sigmaPoints with
  | a :: tauRest, s0 :: sigmaRest =>
      match tauRest, sigmaRest with
      | b :: _, s1 :: _ =>
          (if JS.leb (value a * value b) 0
              && JS.ltb 1e-9 (Rabs (value a - value b))
           then
             let f := fraction a b in
             [ {| mx := xS (theta a + f * (theta b - theta a));
                  my := yS (value s0 + f * (value s1 - value s0)) |} ]
           else [])
          ++ expectedMarkers xS yS sigmaRest tauRest
      | _, _ => []
      end
  | _, _ => []
  end.

(** The two sequences are sampled on one grid of angles whose neighbours
    are distinct. *)
Fixpoint sharedGrid (sigmaPoints tauPoints : list point) : Prop :=
  match sigmaPoints, tauPoints with
  | [], [] => True
  | s :: sigmaRest, a :: tauRest =>
      theta s = theta a
      /\ match tauRest with
         | b :: _ => theta a <> theta b
         | [] => True
         end
      /\ sharedGrid sigmaRest tauRest
  | _, _ => False
  end.

(** No two neighbouring samples differ in sign or touch zero. *)
Definition noSignChange (tauPoints : list point) : Prop :=
  forall i a b,
    nth_error tauPoints i = Some a ->
    nth_error tauPoints (S i) = Some b ->
    0 < value a * value b.

(** *** The drawn arrows as forces *)

(** The vector of an arrow, from its face point to its tip, and its moment
    about the centre of the element. *)
Definition forceX (a : BodyOrientation.arrow) : R :=
  BodyOrientation.ex a - BodyOrientation.fx a.

Definition forceY (a : BodyOrientation.arrow) : R :=
  BodyOrientation.ey a - BodyOrientation.fy a.

Definition moment (a : BodyOrientation.arrow) : R :=
  BodyOrientation.fx a * forceY a - BodyOrientation.fy a * forceX a.

Definition total (f : BodyOrientation.arrow -> R)
    (l : list BodyOrientation.arrow) : R :=
  fold_right (fun a acc => f a + acc) 0 l.

(** *** Well-formed slider parameters *)

Definition wellFormed (p : App.param) : Prop :=
  App.min p < App.max p /\ App.min p <= App.value p <= App.max p.

Definition allWellFormed (ps : App.params) : Prop :=
  wellFormed (App.sigmaX ps) /\ wellFormed (App.sigmaY ps)
  /\ wellFormed (App.tauXY ps).

(** An event the browser can deliver: a range input reports a value between
    its [min] and [max], and a preset button belongs to [PRESETS]. *)
Definition admissible (ps : App.params) (e : ParameterSlider.event) : Prop :=
  match e with
  | ParameterSlider.RangeEdit _ _ _ => True
  | ParameterSlider.SliderInput k v =>
      App.min (App.lookup k ps) <= v <= App.max (App.lookup k ps)
  | ParameterSlider.Preset p => In p App.PRESETS
  end.

(** The parameter states [App] can reach from [INITIAL]. *)
Inductive reachable (parseFloat : string -> option R) : App.params -> Prop :=
| reach_initial : reachable parseFloat App.INITIAL
| reach_step (ps : App.params) (e : ParameterSlider.event) :
    reachable parseFloat ps -> admissible ps e ->
    reachable parseFloat (ParameterSlider.handle parseFloat e ps).

End Spec.

(** * Properties *)

(** ** Comparisons and the remainder operator *)

Lemma ltb_true_iff (x y : R) : JS.ltb x y = true <-> x < y.
Proof.
  unfold JS.ltb. destruct (Rlt_dec x y); split; intros; try easy.
Qed.

Lemma ltb_false_iff (x y : R) : JS.ltb x y = false <-> y <= x.
Proof.
  unfold JS.ltb. destruct (Rlt_dec x y); split; intros; try easy; lra.
Qed.

Lemma leb_true_iff (x y : R) : JS.leb x y = true <-> x <= y.
Proof.
  unfold JS.leb. destruct (Rle_dec x y); split; intros; try easy.
Qed.

Lemma gtb_true_iff (x y : R) : JS.gtb x y = true <-> y < x.
Proof. unfold JS.gtb. apply ltb_true_iff. Qed.

Lemma trunc_nonneg (x : R) :
  0 <= x -> IZR (JS.trunc x) <= x < IZR (JS.trunc x) + 1.
Proof.
  intros Hx. unfold JS.trunc. destruct (Rle_dec 0 x) as [_ | Hn]; [| lra].
  destruct (base_Int_part x). lra.
Qed.

Lemma trunc_neg (x : R) :
  x < 0 -> x <= IZR (JS.trunc x) < x + 1.
Proof.
  intros Hx. unfold JS.trunc. destruct (Rle_dec 0 x) as [Hp | _]; [lra |].
  rewrite opp_IZR. destruct (base_Int_part (- x)). lra.
Qed.

Lemma rem_nonneg (a n : R) : 0 < n -> 0 <= a -> 0 <= JS.rem a n < n.
Proof.
  intros Hn Ha. unfold JS.rem.
  assert (Hq : 0 <= a / n) by (apply Rmult_le_pos; [lra | left; now apply Rinv_0_lt_compat]).
  pose proof (trunc_nonneg _ Hq) as [H1 H2].
  assert (Ea : a = a / n * n) by (field; lra).
  set (q := a / n) in *. set (k := IZR (JS.trunc q)) in *.
  clearbody q k. split; nra.
Qed.

Lemma rem_neg (a n : R) : 0 < n -> a < 0 -> - n < JS.rem a n <= 0.
Proof.
  intros Hn Ha. unfold JS.rem.
  assert (Hq : a / n < 0).
  { assert (0 < / n) by now apply Rinv_0_lt_compat. unfold Rdiv. nra. }
  pose proof (trunc_neg _ Hq) as [H1 H2].
  assert (Ea : a = a / n * n) by (field; lra).
  set (q := a / n) in *. set (k := IZR (JS.trunc q)) in *.
  clearbody q k. split; nra.
Qed.

Lemma rem_range (a n : R) : 0 < n -> - n < JS.rem a n < n.
Proof.
  intros Hn. destruct (Rle_lt_dec 0 a) as [Ha | Ha].
  - pose proof (rem_nonneg a n Hn Ha). lra.
  - pose proof (rem_neg a n Hn Ha). lra.
Qed.

Lemma normalize180_range (a : R) : 0 <= App.normalize180 a < 180.
Proof.
  unfold App.normalize180.
  assert (H180 : 0 < 180) by lra.
  pose proof (rem_range a 180 H180).
  apply rem_nonneg; lra.
Qed.

Lemma normalize180_congr (a : R) :
  exists k : Z, App.normalize180 a = a + 180 * IZR k.
Proof.
  unfold App.normalize180, JS.rem.
  set (k1 := JS.trunc (a / 180)).
  set (k2 := JS.trunc ((a - 180 * IZR k1 + 180) / 180)).
  exists (1 - k1 - k2)%Z. rewrite !minus_IZR. lra.
Qed.

Lemma mod180_unique (r1 r2 : R) (k : Z) :
  0 <= r1 < 180 -> 0 <= r2 < 180 -> r1 - r2 = 180 * IZR k -> r1 = r2.
Proof.
  intros H1 H2 E.
  assert (Hk : (-1 < k < 1)%Z).
  { split; apply lt_IZR; lra. }
  assert (k = 0%Z) by lia. subst k. lra.
Qed.

Lemma normalize180_eq (a r : R) (k : Z) :
  0 <= r < 180 -> r = a + 180 * IZR k -> App.normalize180 a = r.
Proof.
  intros Hr E. destruct (normalize180_congr a) as [k' E'].
  apply (mod180_unique _ _ (k' - k)).
  - apply normalize180_range.
  - exact Hr.
  - rewrite minus_IZR. lra.
Qed.

(** ** [Math.atan2] *)

Lemma atan2_scale (k y x : R) : 0 < k -> JS.atan2 (k * y) (k * x) = JS.atan2 y x.
Proof.
  intros Hk. unfold JS.atan2.
  assert (Hd : x <> 0 -> k * y / (k * x) = y / x) by (intros; field; lra).
  destruct (Rlt_dec 0 (k * x)), (Rlt_dec 0 x); try nra.
  - rewrite Hd by lra. reflexivity.
  - destruct (Rlt_dec (k * x) 0), (Rlt_dec x 0); try nra.
    + rewrite Hd by lra.
      destruct (Rle_dec 0 (k * y)), (Rle_dec 0 y); try nra; reflexivity.
    + destruct (Rlt_dec 0 (k * y)), (Rlt_dec 0 y); try nra; try reflexivity.
      destruct (Rlt_dec (k * y) 0), (Rlt_dec y 0); try nra; reflexivity.
Qed.

Lemma atan2_range (y x : R) : - PI < JS.atan2 y x <= PI.
Proof.
  pose proof PI_RGT_0 as Hpi. unfold JS.atan2.
  destruct (Rlt_dec 0 x) as [Hx | Hx].
  - pose proof (atan_bound (y / x)). lra.
  - destruct (Rlt_dec x 0) as [Hx' | Hx'].
    + assert (Hi : / x < 0) by now apply Rinv_lt_0_compat.
      destruct (Rle_dec 0 y) as [Hy | Hy].
      * assert (Hq : y / x <= 0) by (unfold Rdiv; nra).
        pose proof (atan_bound (y / x)).
        assert (atan (y / x) <= 0).
        { destruct Hq as [Hq | Hq].
          - left. rewrite <- atan_0. now apply atan_increasing.
          - rewrite Hq, atan_0. lra. }
        lra.
      * assert (Hq : 0 < y / x) by (unfold Rdiv; nra).
        pose proof (atan_bound (y / x)).
        assert (0 < atan (y / x)).
        { rewrite <- atan_0. now apply atan_increasing. }
        lra.
    + destruct (Rlt_dec 0 y); [lra |]. destruct (Rlt_dec y 0); lra.
Qed.

Lemma principalAngle_range (sigmaX sigmaY tauXY : R) :
  - 90 < App.principalAngle sigmaX sigmaY tauXY <= 90.
Proof.
  unfold App.principalAngle.
  pose proof PI_RGT_0 as Hpi.
  pose proof (atan2_range (2 * tauXY) (sigmaX - sigmaY)) as [H1 H2].
  set (t := JS.atan2 _ _) in *. clearbody t.
  assert (E : 0.5 * t * 180 / PI = 90 * (t / PI)) by (unfold Rdiv; lra).
  rewrite E.
  assert (-1 < t / PI <= 1).
  { split.
    - apply Rmult_lt_reg_r with PI; [lra |]. unfold Rdiv.
      rewrite Rmult_assoc, Rinv_l by lra. lra.
    - apply Rmult_le_reg_r with PI; [lra |]. unfold Rdiv.
      rewrite Rmult_assoc, Rinv_l by lra. lra. }
  lra.
Qed.

(** ** Principal angles *)

Lemma getPrincipalAngles_null_iff (sigmaX sigmaY tauXY : R) :
  App.getPrincipalAngles sigmaX sigmaY tauXY = None
  <-> Spec.degenerate sigmaX sigmaY tauXY.
Proof.
  unfold App.getPrincipalAngles, Spec.degenerate, JS.abs.
  destruct (JS.ltb (Rabs (sigmaX - sigmaY)) 1e-9) eqn:E1;
    destruct (JS.ltb (Rabs tauXY) 1e-9) eqn:E2; simpl;
    rewrite ?ltb_true_iff, ?ltb_false_iff in *;
    split; intros H; try discriminate; try tauto; lra.
Qed.

Lemma getPrincipalAngles_some (sigmaX sigmaY tauXY : R) :
  ~ Spec.degenerate sigmaX sigmaY tauXY ->
  App.getPrincipalAngles sigmaX sigmaY tauXY
  = Some [App.normalize180 (App.principalAngle sigmaX sigmaY tauXY);
          App.normalize180 (App.principalAngle sigmaX sigmaY tauXY + 90)].
Proof.
  intros H. destruct (App.getPrincipalAngles sigmaX sigmaY tauXY) eqn:E.
  - unfold App.getPrincipalAngles in E.
    destruct (_ && _); [discriminate |]. simpl in E. now inversion E.
  - apply getPrincipalAngles_null_iff in E. contradiction.
Qed.

Lemma thetaP1_eq_principalAngle (sigmaX sigmaY tauXY theta : R) :
  MohrsCircle.thetaP1 (MohrsCircle.derived sigmaX sigmaY tauXY theta)
  = App.principalAngle sigmaX sigmaY tauXY.
Proof.
  unfold MohrsCircle.derived, App.principalAngle. simpl.
  replace (sigmaX - sigmaY) with (2 * ((sigmaX - sigmaY) / 2)) at 2 by lra.
  rewrite atan2_scale by lra. unfold Rdiv. lra.
Qed.

(** C1, as amended.  In exact real arithmetic the transformed normal stresses
    computed by [draw] have exactly the sum of the reference normal
    stresses, for every stress state and every displayed angle; there the
    difference is zero, hence within [1e-9]. *)
Theorem transform_preserves_trace (sigmaX sigmaY tauXY theta : R) :
  let t := BodyOrientation.transform sigmaX sigmaY tauXY theta in
  BodyOrientation.sigma_x_prime t + BodyOrientation.sigma_y_prime t
  = sigmaX + sigmaY
  /\ Rabs (BodyOrientation.sigma_x_prime t + BodyOrientation.sigma_y_prime t
           - (sigmaX + sigmaY)) <= 1e-9.
Proof.
  simpl. split; [lra |].
  match goal with
  | |- Rabs ?e <= _ => replace e with 0 by lra
  end.
  rewrite Rabs_R0. lra.
Qed.

Section TraceInDoubles.

Import PrimFloat.

(** C1, the claim as first stated fails in the doubles of the source.  At
    angle 0, where [Math.cos] and [Math.sin] return exactly 1 and 0, the
    state (-146254302.4, 138973494.8, 0) gives a sum that misses by
    [2 ^ -25], about 2.98e-8.  At 45 degrees, with 6.123233995736766e-17
    and 1 for the cosine and sine of twice the angle, the state
    (84883458, -83437106, -67167279) misses by more than [1e-9] as well. *)
Lemma trace_error_in_doubles :
  Doubles.traceError 1%float 0%float
    (-146254302.4)%float 138973494.8%float 0%float
  = (-0x1p-25)%float
  /\ ltb 1e-9%float
       (abs (Doubles.traceError 1%float 0%float
               (-146254302.4)%float 138973494.8%float 0%float))
     = true
  /\ ltb 1e-9%float
       (abs (Doubles.traceError 6.123233995736766e-17%float 1%float
               84883458%float (-83437106)%float (-67167279)%float))
     = true.
Proof. repeat split; vm_compute; reflexivity. Qed.

End TraceInDoubles.

(** C2. The principal angle [thetaP1] of the circle view and the angle of the
    curve view denote the same orientation: the two [atan2] formulas are
    equal modulo 180 degrees, and whenever [getPrincipalAngles] returns a
    pair, its entries are [thetaP1] and [thetaP2] modulo 180 degrees. *)
Theorem principal_angle_formulas_agree (sigmaX sigmaY tauXY theta : R) :
  let d := MohrsCircle.derived sigmaX sigmaY tauXY theta in
  Spec.eqmod180 (MohrsCircle.thetaP1 d)
                (App.principalAngle sigmaX sigmaY tauXY)
  /\ (~ Spec.degenerate sigmaX sigmaY tauXY ->
      exists a0 a1,
        App.getPrincipalAngles sigmaX sigmaY tauXY = Some [a0; a1]
        /\ Spec.eqmod180 (MohrsCircle.thetaP1 d) a0
        /\ Spec.eqmod180 (MohrsCircle.thetaP2 d) a1).
Proof.
  intros d. subst d. split.
  - exists 0%Z. rewrite thetaP1_eq_principalAngle. lra.
  - intros Hnd. do 2 eexists. split; [now apply getPrincipalAngles_some |].
    assert (E2 : MohrsCircle.thetaP2 (MohrsCircle.derived sigmaX sigmaY tauXY theta)
                 = App.principalAngle sigmaX sigmaY tauXY + 90).
    { rewrite <- (thetaP1_eq_principalAngle sigmaX sigmaY tauXY theta).
      reflexivity. }
    rewrite E2, thetaP1_eq_principalAngle.
    set (a := App.principalAngle sigmaX sigmaY tauXY).
    destruct (normalize180_congr a) as [k Hk].
    destruct (normalize180_congr (a + 90)) as [k' Hk'].
    split; [exists (- k)%Z | exists (- k')%Z]; rewrite opp_IZR; lra.
Qed.

Lemma principal_angle_formulas_agree_witness :
  let d := MohrsCircle.derived 80 (-40) 50 0 in
  Spec.eqmod180 (MohrsCircle.thetaP1 d) (App.principalAngle 80 (-40) 50)
  /\ exists a0 a1,
       App.getPrincipalAngles 80 (-40) 50 = Some [a0; a1]
       /\ Spec.eqmod180 (MohrsCircle.thetaP1 d) a0
       /\ Spec.eqmod180 (MohrsCircle.thetaP2 d) a1.
Proof.
  intros d. subst d.
  destruct (principal_angle_formulas_agree 80 (-40) 50 0) as [H1 H2].
  split; [exact H1 |]. apply H2.
  unfold Spec.degenerate. intros [_ H].
  rewrite Rabs_pos_eq in H; lra.
Defined.

(** C3. At the hydrostatic state [(60, 60, 0)] (the "Equal Biax" preset) the
    curve view reports degeneracy, [getPrincipalAngles] returning [null],
    while the [derived] memo of the circle view applies no guard and yields
    the numbers [thetaP1 = 0] and [thetaP2 = 90]: the two views disagree
    about degeneracy. *)
Theorem degeneracy_guard_missing_in_circle_view (theta : R) :
  Spec.degenerate 60 60 0
  /\ App.getPrincipalAngles 60 60 0 = None
  /\ MohrsCircle.thetaP1 (MohrsCircle.derived 60 60 0 theta) = 0
  /\ MohrsCircle.thetaP2 (MohrsCircle.derived 60 60 0 theta) = 90.
Proof.
  assert (Hd : Spec.degenerate 60 60 0).
  { unfold Spec.degenerate.
    replace (60 - 60) with 0 by lra. rewrite Rabs_R0. lra. }
  assert (E : MohrsCircle.thetaP1 (MohrsCircle.derived 60 60 0 theta) = 0).
  { rewrite thetaP1_eq_principalAngle. unfold App.principalAngle, JS.atan2.
    destruct (Rlt_dec 0 (60 - 60)); [lra |].
    destruct (Rlt_dec (60 - 60) 0); [lra |].
    destruct (Rlt_dec 0 (2 * 0)); [lra |].
    destruct (Rlt_dec (2 * 0) 0); [lra |].
    unfold Rdiv. lra. }
  repeat split; try apply Hd.
  - now apply getPrincipalAngles_null_iff.
  - exact E.
  - change (MohrsCircle.thetaP1 (MohrsCircle.derived 60 60 0 theta) + 90 = 90).
    rewrite E. lra.
Qed.




(** ** The marker search of [render] *)

Section Markers.

Import StressGraph.

Variables xS yS : R -> R.

Lemma markersOf_cons2 (s0 s1 a b : point) (sp tp : list point) :
  Spec.markersOf xS yS (s0 :: s1 :: sp) (a :: b :: tp)
  = (if crosses a b
     then [ {| mx := xS (tCrossOf a b);
               my := yS (sValOf s0 s1 (tCrossOf a b)) |} ]
     else [])
    ++ Spec.markersOf xS yS (s1 :: sp) (b :: tp).
Proof. reflexivity. Qed.

Lemma expectedMarkers_cons2 (s0 s1 a b : point) (sp tp : list point) :
  Spec.expectedMarkers xS yS (s0 :: s1 :: sp) (a :: b :: tp)
  = (if JS.leb (value a * value b) 0
        && JS.ltb 1e-9 (Rabs (value a - value b))
     then
       [ {| mx := xS (theta a + Spec.fraction a b * (theta b - theta a));
            my := yS (value s0
                      + Spec.fraction a b * (value s1 - value s0)) |} ]
     else [])
    ++ Spec.expectedMarkers xS yS (s1 :: sp) (b :: tp).
Proof. reflexivity. Qed.

Lemma markerAt_shift (s a : point) (sp tp : list point) (i : nat) :
  markerAt xS yS (s :: sp) (a :: tp) (S i) = markerAt xS yS sp tp i.
Proof. reflexivity. Qed.

Lemma markerLoop_shift (s a : point) (sp tp : list point) (idx : list nat) :
  forall acc,
    markerLoop xS yS (s :: sp) (a :: tp) (map S idx) acc
    = markerLoop xS yS sp tp idx acc.
Proof.
  induction idx as [| i idx IH]; intros acc; [reflexivity |].
  cbn [map markerLoop]. rewrite markerAt_shift.
  destruct (markerAt xS yS sp tp i) as [m | e]; simpl; [apply IH | reflexivity].
Qed.

Lemma markerLoop_markersOf (tp : list point) :
  forall sp acc,
    List.length sp = List.length tp ->
    markerLoop xS yS sp tp (seq 0 (List.length tp - 1)) acc
    = JS.Normal (acc ++ Spec.markersOf xS yS sp tp).
Proof.
  induction tp as [| a tp IH]; intros sp acc Hlen.
  - simpl. now rewrite app_nil_r.
  - destruct sp as [| s0 sp]; [discriminate |].
    destruct tp as [| b tp].
    + simpl. now rewrite app_nil_r.
    + destruct sp as [| s1 sp]; [discriminate |].
      assert (Hlen' : List.length (s1 :: sp) = List.length (b :: tp))
        by (simpl in *; lia).
      specialize (IH (s1 :: sp)).
      replace (List.length (a :: b :: tp) - 1)%nat
        with (S (List.length (b :: tp) - 1)) by (simpl; lia).
      rewrite <- cons_seq, <- seq_shift.
      cbn [markerLoop].
      assert (E : markerAt xS yS (s0 :: s1 :: sp) (a :: b :: tp) 0
                  = JS.Normal
                      (if crosses a b
                       then [ {| mx := xS (tCrossOf a b);
                                 my := yS (sValOf s0 s1 (tCrossOf a b)) |} ]
                       else [])).
      { unfold markerAt, index. simpl. now destruct (crosses a b). }
      rewrite E. cbn [JS.bind].
      rewrite markerLoop_shift, IH by exact Hlen'.
      rewrite markersOf_cons2. now rewrite app_assoc.
Qed.

Lemma principalMarkers_markersOf (sp tp : list point) :
  List.length sp = List.length tp ->
  principalMarkers xS yS sp tp = JS.Normal (Spec.markersOf xS yS sp tp).
Proof.
  intros Hlen. unfold principalMarkers.
  now rewrite markerLoop_markersOf.
Qed.

Lemma crosses_true_iff (a b : point) :
  crosses a b = true
  <-> value a * value b <= 0 /\ Rabs (value a - value b) > 1e-9.
Proof.
  unfold crosses, JS.abs.
  rewrite andb_true_iff, leb_true_iff, gtb_true_iff. reflexivity.
Qed.

(** On a shared grid the sigma value of a marker is interpolated by the
    fraction that interpolates its angle. *)
Lemma sValOf_same_fraction (a b s0 s1 : point) :
  theta s0 = theta a -> theta s1 = theta b -> theta a <> theta b ->
  sValOf s0 s1 (tCrossOf a b)
  = value s0 + Spec.fraction a b * (value s1 - value s0).
Proof.
  intros E0 E1 Hne. unfold sValOf, tCrossOf, Spec.fraction.
  rewrite E0, E1.
  set (f := (0 - value a) / (value b - value a)).
  replace ((theta a + f * (theta b - theta a) - theta a)
           / (theta b - theta a)) with f; [reflexivity |].
  field. lra.
Qed.

Lemma markersOf_expected (tp : list point) :
  forall sp,
    Spec.sharedGrid sp tp ->
    Spec.markersOf xS yS sp tp = Spec.expectedMarkers xS yS sp tp.
Proof.
  induction tp as [| a tp IH]; intros sp Hg; [reflexivity |].
  destruct sp as [| s0 sp]; [reflexivity |].
  destruct tp as [| b tp]; [reflexivity |].
  destruct sp as [| s1 sp]; [reflexivity |].
  destruct Hg as (E0 & Hne & Hg).
  pose proof Hg as (E1 & _ & _).
  rewrite markersOf_cons2, expectedMarkers_cons2, (IH _ Hg). f_equal.
  unfold crosses, JS.gtb, JS.abs.
  destruct (_ && _); [| reflexivity].
  rewrite sValOf_same_fraction by assumption. reflexivity.
Qed.

Lemma noSignChange_tail (a : point) (tp : list point) :
  Spec.noSignChange (a :: tp) -> Spec.noSignChange tp.
Proof.
  intros H i x y Hx Hy. apply (H (S i) x y); assumption.
Qed.

Lemma markersOf_noSignChange (tp : list point) :
  forall sp, Spec.noSignChange tp -> Spec.markersOf xS yS sp tp = [].
Proof.
  induction tp as [| a tp IH]; intros sp Hn; [reflexivity |].
  destruct sp as [| s0 sp]; [reflexivity |].
  destruct tp as [| b tp]; [reflexivity |].
  destruct sp as [| s1 sp]; [reflexivity |].
  rewrite markersOf_cons2, (IH _ (noSignChange_tail _ _ Hn)).
  assert (Hab : 0 < value a * value b) by (apply (Hn 0%nat); reflexivity).
  destruct (crosses a b) eqn:E; [| reflexivity].
  apply crosses_true_iff in E. lra.
Qed.

End Markers.

(** C5. For sigma and tau sequences sampled together (equal length), the
    marker search of [render] completes without throwing.  On a shared grid
    of distinct angles it reports, in order, one marker per adjacent pair
    whose product is non-positive and whose gap exceeds [1e-9], placed at the
    linearly interpolated crossing angle with the sigma value interpolated by
    the same fraction; it reports nothing when no adjacent pair changes
    sign. *)
Theorem principalMarkers_zero_crossings
    (xS yS : R -> R) (sigmaPoints tauPoints : list StressGraph.point) :
  List.length sigmaPoints = List.length tauPoints ->
  exists ms,
    StressGraph.principalMarkers xS yS sigmaPoints tauPoints = JS.Normal ms
    /\ (Spec.sharedGrid sigmaPoints tauPoints ->
        ms = Spec.expectedMarkers xS yS sigmaPoints tauPoints)
    /\ (Spec.noSignChange tauPoints -> ms = []).
Proof.
  intros Hlen. exists (Spec.markersOf xS yS sigmaPoints tauPoints).
  split; [now apply principalMarkers_markersOf |].
  split; intros H.
  - now apply markersOf_expected.
  - now apply markersOf_noSignChange.
Qed.

(** ** The sampler [computeCurves] *)

Section Sampler.

Import StressGraph.



Lemma sampleTheta_even (thetaMin thetaMax : R) (steps i : nat) :
  sampleTheta thetaMin thetaMax steps (S i)
  - sampleTheta thetaMin thetaMax steps i
  = (thetaMax - thetaMin) / INR steps.
Proof. unfold sampleTheta. rewrite S_INR. unfold Rdiv. lra. Qed.




End Sampler.




(** ** Smoothing ticks *)

Lemma geometric_decay (q e0 eps : R) :
  Rabs q < 1 -> 0 < eps ->
  exists N : nat, forall n : nat, (N <= n)%nat -> Rabs (q ^ n * e0) < eps.
Proof.
  intros Hq Heps.
  assert (Hpos : 0 < Rabs e0 + 1) by (pose proof (Rabs_pos e0); lra).
  assert (Hy : 0 < eps / (Rabs e0 + 1)).
  { unfold Rdiv. apply Rmult_lt_0_compat; [lra | now apply Rinv_0_lt_compat]. }
  destruct (pow_lt_1_zero q Hq _ Hy) as [N HN].
  exists N. intros n Hn. specialize (HN n Hn).
  rewrite Rabs_mult.
  pose proof (Rabs_pos e0) as He. pose proof (Rabs_pos (q ^ n)) as Hp.
  assert (Hb : Rabs (q ^ n) * (Rabs e0 + 1) < eps).
  { apply Rmult_lt_compat_r with (r := Rabs e0 + 1) in HN; [| lra].
    unfold Rdiv in HN. rewrite Rmult_assoc, Rinv_l in HN by lra. lra. }
  nra.
Qed.

Lemma lerp_error (a b : R) :
  StressGraph.lerp a b StressGraph.SPEED - b = 0.88 * (a - b).
Proof. unfold StressGraph.lerp, StressGraph.SPEED. lra. Qed.

Lemma lerp_between (a b : R) :
  Spec.between a b (StressGraph.lerp a b StressGraph.SPEED).
Proof.
  unfold Spec.between, StressGraph.lerp, StressGraph.SPEED.
  destruct (Rle_lt_dec a b); [left | right]; lra.
Qed.

Lemma smoothN_error (n : nat) :
  forall d t,
    StressGraph.sigmaX (StressGraph.smoothN n d t) - StressGraph.sigmaX t
    = 0.88 ^ n * (StressGraph.sigmaX d - StressGraph.sigmaX t)
    /\ StressGraph.sigmaY (StressGraph.smoothN n d t) - StressGraph.sigmaY t
       = 0.88 ^ n * (StressGraph.sigmaY d - StressGraph.sigmaY t)
    /\ StressGraph.tauXY (StressGraph.smoothN n d t) - StressGraph.tauXY t
       = 0.88 ^ n * (StressGraph.tauXY d - StressGraph.tauXY t).
Proof.
  induction n as [| n IH]; intros d t.
  - simpl. repeat split; lra.
  - cbn [StressGraph.smoothN].
    destruct (IH (StressGraph.smooth d t) t) as (Hx & Hy & Hz).
    rewrite Hx, Hy, Hz. cbn [StressGraph.smooth StressGraph.sigmaX
                             StressGraph.sigmaY StressGraph.tauXY].
    rewrite !lerp_error. simpl. repeat split; lra.
Qed.

Lemma lerpTheta_cases (d t : R) :
  (Rabs (t - d) < 0.01 /\ BodyOrientation.lerpTheta d t = t)
  \/ (0.01 <= Rabs (t - d)
      /\ BodyOrientation.lerpTheta d t = d + (t - d) * 0.14).
Proof.
  unfold BodyOrientation.lerpTheta, JS.abs.
  destruct (JS.ltb (Rabs (t - d)) 0.01) eqn:E.
  - left. apply ltb_true_iff in E. now split.
  - right. apply ltb_false_iff in E. now split.
Qed.

Lemma lerpTheta_between (d t : R) :
  Spec.between d t (BodyOrientation.lerpTheta d t).
Proof.
  unfold Spec.between.
  destruct (lerpTheta_cases d t) as [[_ ->] | [_ ->]];
    destruct (Rle_lt_dec d t); [left | right | left | right]; lra.
Qed.

Lemma lerpTheta_error (d t : R) :
  Rabs (BodyOrientation.lerpTheta d t - t) <= 0.86 * Rabs (d - t).
Proof.
  pose proof (Rabs_pos (d - t)) as Hp.
  destruct (lerpTheta_cases d t) as [[_ ->] | [_ ->]].
  - replace (t - t) with 0 by lra. rewrite Rabs_R0. lra.
  - replace (d + (t - d) * 0.14 - t) with (0.86 * (d - t)) by lra.
    rewrite Rabs_mult, (Rabs_pos_eq 0.86) by lra. lra.
Qed.

Lemma lerpThetaN_error (n : nat) :
  forall d t,
    Rabs (BodyOrientation.lerpThetaN n d t - t) <= 0.86 ^ n * Rabs (d - t).
Proof.
  induction n as [| n IH]; intros d t.
  - simpl. lra.
  - cbn [BodyOrientation.lerpThetaN].
    specialize (IH (BodyOrientation.lerpTheta d t) t).
    pose proof (lerpTheta_error d t) as He.
    assert (Hq : 0 <= 0.86 ^ n) by (apply pow_le; lra).
    simpl. nra.
Qed.

Section StallInDoubles.

Import PrimFloat.

(** In doubles the stress smoother can stop short of its target: from 80
    towards 3e9 the displayed value reaches, after 273 ticks, a fixed point
    of the tick that lies about 1.9e-6 below the target. *)
Lemma lerp_stalls_in_doubles :
  Doubles.lerpN 273 80%float 3e9%float = 0x1.65a0bbffffffcp+31%float
  /\ Doubles.lerp 0x1.65a0bbffffffcp+31%float 3e9%float Doubles.SPEED
     = 0x1.65a0bbffffffcp+31%float
  /\ ltb 1e-6%float (3e9 - 0x1.65a0bbffffffcp+31)%float = true.
Proof. repeat split; vm_compute; reflexivity. Qed.

(** C7, as amended.  One tick of the stress smoother maps every displayed
    component to [displayed + (target - displayed) * 0.12].  One tick of the
    angle smoother maps the displayed angle to
    [displayed + (target - displayed) * 0.14] while the gap is at least
    [0.01], and to the target itself once the gap is below [0.01].  In both
    smoothers the new value lies between the old value and the target.  In
    exact real arithmetic, after enough ticks towards a fixed target every
    displayed value stays within [1e-6] of it.  In the doubles of the source
    that need not hold for the stresses: from 80 towards 3e9 the tick
    reaches a fixed point more than [1e-6] short of the target. *)
Theorem smoothing_ticks (d t : StressGraph.params) (displayTheta targetTheta : R) :
  (StressGraph.sigmaX (StressGraph.smooth d t)
   = StressGraph.sigmaX d
     + (StressGraph.sigmaX t - StressGraph.sigmaX d) * 0.12
   /\ StressGraph.sigmaY (StressGraph.smooth d t)
      = StressGraph.sigmaY d
        + (StressGraph.sigmaY t - StressGraph.sigmaY d) * 0.12
   /\ StressGraph.tauXY (StressGraph.smooth d t)
      = StressGraph.tauXY d
        + (StressGraph.tauXY t - StressGraph.tauXY d) * 0.12)
  /\ ((Rabs (targetTheta - displayTheta) < 0.01
       /\ BodyOrientation.lerpTheta displayTheta targetTheta = targetTheta)
      \/ (0.01 <= Rabs (targetTheta - displayTheta)
          /\ BodyOrientation.lerpTheta displayTheta targetTheta
             = displayTheta + (targetTheta - displayTheta) * 0.14))
  /\ (Spec.between (StressGraph.sigmaX d) (StressGraph.sigmaX t)
        (StressGraph.sigmaX (StressGraph.smooth d t))
      /\ Spec.between (StressGraph.sigmaY d) (StressGraph.sigmaY t)
           (StressGraph.sigmaY (StressGraph.smooth d t))
      /\ Spec.between (StressGraph.tauXY d) (StressGraph.tauXY t)
           (StressGraph.tauXY (StressGraph.smooth d t))
      /\ Spec.between displayTheta targetTheta
           (BodyOrientation.lerpTheta displayTheta targetTheta))
  /\ (exists N : nat,
       forall n : nat, (N <= n)%nat ->
         Rabs (StressGraph.sigmaX (StressGraph.smoothN n d t)
               - StressGraph.sigmaX t) < 1e-6
         /\ Rabs (StressGraph.sigmaY (StressGraph.smoothN n d t)
                  - StressGraph.sigmaY t) < 1e-6
         /\ Rabs (StressGraph.tauXY (StressGraph.smoothN n d t)
                  - StressGraph.tauXY t) < 1e-6
         /\ Rabs (BodyOrientation.lerpThetaN n displayTheta targetTheta
                  - targetTheta) < 1e-6)
  /\ (Doubles.lerpN 273 80%float 3e9%float = 0x1.65a0bbffffffcp+31%float
      /\ Doubles.lerp 0x1.65a0bbffffffcp+31%float 3e9%float Doubles.SPEED
         = 0x1.65a0bbffffffcp+31%float
      /\ ltb 1e-6%float (3e9 - 0x1.65a0bbffffffcp+31)%float = true).
Proof.
  split; [repeat split; reflexivity |].
  split; [apply lerpTheta_cases |].
  split.
  { repeat split; try apply lerp_between. apply lerpTheta_between. }
  split; [| exact lerp_stalls_in_doubles].
  assert (H88 : Rabs 0.88 < 1) by (rewrite Rabs_pos_eq; lra).
  assert (H86 : Rabs 0.86 < 1) by (rewrite Rabs_pos_eq; lra).
  assert (Heps : 0 < 1e-6) by lra.
  destruct (geometric_decay 0.88 (StressGraph.sigmaX d - StressGraph.sigmaX t)
              _ H88 Heps) as [Nx Hx].
  destruct (geometric_decay 0.88 (StressGraph.sigmaY d - StressGraph.sigmaY t)
              _ H88 Heps) as [Ny Hy].
  destruct (geometric_decay 0.88 (StressGraph.tauXY d - StressGraph.tauXY t)
              _ H88 Heps) as [Nz Hz].
  destruct (geometric_decay 0.86 (displayTheta - targetTheta)
              _ H86 Heps) as [Nt Ht].
  exists (Nx + Ny + Nz + Nt)%nat. intros n Hn.
  destruct (smoothN_error n d t) as (Ex & Ey & Ez).
  rewrite Ex, Ey, Ez.
  repeat split.
  - apply Hx. lia.
  - apply Hy. lia.
  - apply Hz. lia.
  - eapply Rle_lt_trans; [apply lerpThetaN_error |].
    specialize (Ht n ltac:(lia)).
    rewrite Rabs_mult, (Rabs_pos_eq (0.86 ^ n)) in Ht; [exact Ht |].
    apply pow_le. lra.
Qed.

End StallInDoubles.

(** C7, the claim as first stated fails for the angle: with the displayed
    angle at 0 and the target at 0.005 one tick yields the target 0.005, not
    [0 + (0.005 - 0) * 0.14 = 0.0007]. *)
Lemma lerpTheta_snaps_to_target :
  BodyOrientation.lerpTheta 0 0.005 = 0.005
  /\ BodyOrientation.lerpTheta 0 0.005 <> 0 + (0.005 - 0) * 0.14.
Proof.
  assert (E : BodyOrientation.lerpTheta 0 0.005 = 0.005).
  { destruct (lerpTheta_cases 0 0.005) as [[_ E] | [H _]]; [exact E |].
    rewrite Rabs_pos_eq in H; lra. }
  split; [exact E |]. rewrite E. lra.
Qed.

(** ** The viewport of the circle view *)

Lemma clamp_in_range (x : R) :
  Spec.zoomInRange (JS.min (JS.max x 0.4) 8).
Proof.
  unfold Spec.zoomInRange, JS.min, JS.max, Rmin, Rmax.
  destruct (Rle_dec x 0.4); destruct (Rle_dec _ 8); lra.
Qed.

Lemma handle_keeps_zoom_in_range (e : MohrsCircle.event) (v : MohrsCircle.viewport) :
  Spec.zoomInRange (MohrsCircle.zoom v) ->
  Spec.zoomInRange (MohrsCircle.zoom (MohrsCircle.handle e v)).
Proof.
  intros Hv. destruct e; simpl; try exact Hv.
  - apply clamp_in_range.
  - unfold MohrsCircle.handleMouseMove.
    destruct (negb (MohrsCircle.isPanning v)); exact Hv.
  - unfold Spec.zoomInRange. lra.
  - unfold Spec.zoomInRange in *. unfold JS.min, Rmin.
    destruct (Rle_dec _ 8); lra.
  - unfold Spec.zoomInRange in *. unfold JS.max, Rmax.
    destruct (Rle_dec _ 0.4); lra.
  - unfold Spec.zoomInRange. lra.
Qed.

Lemma run_keeps_zoom_in_range (es : list MohrsCircle.event) :
  forall v,
    Spec.zoomInRange (MohrsCircle.zoom v) ->
    Spec.zoomInRange (MohrsCircle.zoom (MohrsCircle.run es v)).
Proof.
  induction es as [| e es IH]; intros v Hv; [exact Hv |].
  apply IH. now apply handle_keeps_zoom_in_range.
Qed.

(** C8. Starting from the initial viewport, after any sequence of wheel
    notches, button steps, resets and pan gestures the zoom lies in
    [[0.4, 8]]. *)
Theorem zoom_always_in_range (es : list MohrsCircle.event) :
  Spec.zoomInRange (MohrsCircle.zoom (MohrsCircle.run es MohrsCircle.initial)).
Proof.
  apply run_keeps_zoom_in_range.
  unfold Spec.zoomInRange, MohrsCircle.initial. simpl. lra.
Qed.

(** The reset handler, bound to both the reset button and the double click,
    sets the zoom to 1 and the pan to (0, 0) whatever the viewport was. *)
Lemma reset_sets_unit_zoom (v : MohrsCircle.viewport) :
  MohrsCircle.handle MohrsCircle.ClickReset v = MohrsCircle.handleDblClick v
  /\ MohrsCircle.handle MohrsCircle.DoubleClick v = MohrsCircle.handleDblClick v
  /\ MohrsCircle.zoom (MohrsCircle.handleDblClick v) = 1
  /\ MohrsCircle.panX (MohrsCircle.handleDblClick v) = 0
  /\ MohrsCircle.panY (MohrsCircle.handleDblClick v) = 0.
Proof. repeat split. Qed.

(** C9. Resetting the freshly mounted viewport restores the pan to its
    initial value (0, 0) but leaves the zoom at 1, whereas the viewport
    starts at zoom 1.6: the reset does not restore the initial zoom. *)
Theorem reset_does_not_restore_initial_zoom :
  let v := MohrsCircle.handle MohrsCircle.ClickReset MohrsCircle.initial in
  MohrsCircle.zoom MohrsCircle.initial = 1.6
  /\ MohrsCircle.zoom v = 1
  /\ MohrsCircle.zoom v <> MohrsCircle.zoom MohrsCircle.initial
  /\ MohrsCircle.panX v = MohrsCircle.panX MohrsCircle.initial
  /\ MohrsCircle.panY v = MohrsCircle.panY MohrsCircle.initial
  /\ MohrsCircle.handle MohrsCircle.DoubleClick MohrsCircle.initial = v.
Proof.
  simpl. repeat split; try reflexivity. lra.
Qed.

(** ** The angle-range control *)

Section RangeControl.

Import ThetaRangeControl.

Variable parseFloat : string -> option R.
Variable toString : R -> string.

Lemma applyMin_cases (raw : string) (s : state) :
  thetaMax (applyMin parseFloat raw s) = thetaMax s
  /\ ((exists v, parseFloat raw = Some v /\ v < thetaMax s
                 /\ thetaMin (applyMin parseFloat raw s) = v)
      \/ ((parseFloat raw = None
           \/ exists v, parseFloat raw = Some v /\ thetaMax s <= v)
          /\ applyMin parseFloat raw s = s)).
Proof.
  unfold applyMin. destruct (parseFloat raw) as [v |].
  - destruct (JS.ltb v (thetaMax s)) eqn:E.
    + apply ltb_true_iff in E. split; [reflexivity |]. left. now exists v.
    + apply ltb_false_iff in E. split; [reflexivity |].
      right. split; [right; now exists v | reflexivity].
  - split; [reflexivity |]. right. split; [now left | reflexivity].
Qed.

Lemma applyMax_cases (raw : string) (s : state) :
  thetaMin (applyMax parseFloat raw s) = thetaMin s
  /\ ((exists v, parseFloat raw = Some v /\ thetaMin s < v
                 /\ thetaMax (applyMax parseFloat raw s) = v)
      \/ ((parseFloat raw = None
           \/ exists v, parseFloat raw = Some v /\ v <= thetaMin s)
          /\ applyMax parseFloat raw s = s)).
Proof.
  unfold applyMax. destruct (parseFloat raw) as [v |].
  - destruct (JS.gtb v (thetaMin s)) eqn:E.
    + apply gtb_true_iff in E. split; [reflexivity |]. left. now exists v.
    + unfold JS.gtb in E. apply ltb_false_iff in E. split; [reflexivity |].
      right. split; [right; now exists v | reflexivity].
  - split; [reflexivity |]. right. split; [now left | reflexivity].
Qed.

Lemma applyMin_ordered (raw : string) (s : state) :
  thetaMin s < thetaMax s ->
  thetaMin (applyMin parseFloat raw s) < thetaMax (applyMin parseFloat raw s).
Proof.
  intros H. destruct (applyMin_cases raw s) as [Emax [(v & _ & Hv & Emin) | [_ E]]].
  - rewrite Emax, Emin. exact Hv.
  - now rewrite E.
Qed.

Lemma applyMax_ordered (raw : string) (s : state) :
  thetaMin s < thetaMax s ->
  thetaMin (applyMax parseFloat raw s) < thetaMax (applyMax parseFloat raw s).
Proof.
  intros H. destruct (applyMax_cases raw s) as [Emin [(v & _ & Hv & Emax) | [_ E]]].
  - rewrite Emin, Emax. exact Hv.
  - now rewrite E.
Qed.

Lemma handle_ordered (e : event) (s : state) :
  thetaMin s < thetaMax s ->
  thetaMin (handle parseFloat toString e s)
  < thetaMax (handle parseFloat toString e s).
Proof.
  intros H.
  pose proof (applyMin_ordered (localMin s) s H) as Hmin.
  pose proof (applyMax_ordered (localMax s) s H) as Hmax.
  destruct e; simpl;
    repeat match goal with
           | |- context [if ?b then _ else _] => destruct b
           end; simpl; assumption.
Qed.

Lemma run_ordered (es : list event) :
  forall s,
    thetaMin s < thetaMax s ->
    thetaMin (run parseFloat toString es s)
    < thetaMax (run parseFloat toString es s).
Proof.
  induction es as [| e es IH]; intros s H; [exact H |].
  apply IH. now apply handle_ordered.
Qed.

End RangeControl.

(** C10. While [thetaMin < thetaMax] holds it keeps holding after every
    event of the control, and hence after every sequence of edits.
    [applyMin] never touches [thetaMax] and replaces [thetaMin] by the parsed
    number only when that number is strictly below [thetaMax]; [applyMax]
    never touches [thetaMin] and replaces [thetaMax] only by a parsed number
    strictly above [thetaMin]; text that does not parse, or a number on the
    wrong side, leaves the state as it was. *)
Theorem theta_range_stays_ordered
    (parseFloat : string -> option R) (toString : R -> string)
    (s : ThetaRangeControl.state) :
  ThetaRangeControl.thetaMin s < ThetaRangeControl.thetaMax s ->
  (forall es,
      ThetaRangeControl.thetaMin (ThetaRangeControl.run parseFloat toString es s)
      < ThetaRangeControl.thetaMax (ThetaRangeControl.run parseFloat toString es s))
  /\ (forall raw,
        let s' := ThetaRangeControl.applyMin parseFloat raw s in
        ThetaRangeControl.thetaMax s' = ThetaRangeControl.thetaMax s
        /\ ((exists v, parseFloat raw = Some v
                       /\ v < ThetaRangeControl.thetaMax s
                       /\ ThetaRangeControl.thetaMin s' = v)
            \/ ((parseFloat raw = None
                 \/ exists v, parseFloat raw = Some v
                              /\ ThetaRangeControl.thetaMax s <= v)
                /\ s' = s)))
  /\ (forall raw,
        let s' := ThetaRangeControl.applyMax parseFloat raw s in
        ThetaRangeControl.thetaMin s' = ThetaRangeControl.thetaMin s
        /\ ((exists v, parseFloat raw = Some v
                       /\ ThetaRangeControl.thetaMin s < v
                       /\ ThetaRangeControl.thetaMax s' = v)
            \/ ((parseFloat raw = None
                 \/ exists v, parseFloat raw = Some v
                              /\ v <= ThetaRangeControl.thetaMin s)
                /\ s' = s))).
Proof.
  intros H. split; [| split].
  - intros es. now apply run_ordered.
  - intros raw. apply applyMin_cases.
  - intros raw. apply applyMax_cases.
Qed.

Lemma theta_range_stays_ordered_witness :
  let parseFloat := fun raw : string =>
                      if String.eqb raw "10"%string then Some 10 else None in
  let toString := fun _ : R => "0"%string in
  let s := ThetaRangeControl.initial toString in
  ThetaRangeControl.thetaMin s < ThetaRangeControl.thetaMax s
  /\ ThetaRangeControl.thetaMin
       (ThetaRangeControl.run parseFloat toString
          [ThetaRangeControl.ClickMin; ThetaRangeControl.ChangeMin "10"%string;
           ThetaRangeControl.BlurMin] s)
     < ThetaRangeControl.thetaMax
         (ThetaRangeControl.run parseFloat toString
            [ThetaRangeControl.ClickMin; ThetaRangeControl.ChangeMin "10"%string;
             ThetaRangeControl.BlurMin] s).
Proof.
  intros parseFloat toString s.
  assert (H : ThetaRangeControl.thetaMin s < ThetaRangeControl.thetaMax s).
  { unfold s, ThetaRangeControl.initial, App.initialThetaMin,
      App.initialThetaMax. simpl. lra. }
  split; [exact H |].
  exact (proj1 (theta_range_stays_ordered parseFloat toString s H) _).
Defined.

Lemma principalMarkers_zero_crossings_witness :
  let sp := [ {| StressGraph.theta := 0; StressGraph.value := 1 |};
              {| StressGraph.theta := 10; StressGraph.value := 3 |} ] in
  let tp := [ {| StressGraph.theta := 0; StressGraph.value := 2 |};
              {| StressGraph.theta := 10; StressGraph.value := - 2 |} ] in
  List.length sp = List.length tp
  /\ exists ms,
       StressGraph.principalMarkers (fun x => x) (fun y => y) sp tp
       = JS.Normal ms
       /\ (Spec.sharedGrid sp tp ->
           ms = Spec.expectedMarkers (fun x => x) (fun y => y) sp tp)
       /\ (Spec.noSignChange tp -> ms = []).
Proof.
  intros sp tp. split; [reflexivity |].
  apply (principalMarkers_zero_crossings (fun x => x) (fun y => y) sp tp).
  reflexivity.
Defined.

(** The sequences produced by [computeCurves] are sampled together and, for
    distinct bounds, lie on a shared grid: the marker search applied to them
    never throws and reports exactly the expected markers. *)
Lemma sharedGrid_map_seq (f g : nat -> StressGraph.point) (n : nat) :
  (forall i, StressGraph.theta (f i) = StressGraph.theta (g i)) ->
  (forall i, StressGraph.theta (g i) <> StressGraph.theta (g (S i))) ->
  forall k, Spec.sharedGrid (map f (seq k n)) (map g (seq k n)).
Proof.
  intros Hfg Hne. induction n as [| n IH]; intros k; [exact I |].
  specialize (IH (S k)). simpl in *.
  split; [apply Hfg |]. split; [| exact IH].
  destruct n; [exact I | apply Hne].
Qed.

Lemma sampled_markers (xS yS : R -> R)
    (sigmaX sigmaY tauXY thetaMin thetaMax : R) (steps : nat) :
  exists c ms,
    StressGraph.computeCurves sigmaX sigmaY tauXY thetaMin thetaMax steps
    = JS.Normal c
    /\ StressGraph.principalMarkers xS yS
         (StressGraph.sigmaPoints c) (StressGraph.tauPoints c) = JS.Normal ms
    /\ ((1 <= steps)%nat -> thetaMin <> thetaMax ->
        ms = Spec.expectedMarkers xS yS
               (StressGraph.sigmaPoints c) (StressGraph.tauPoints c)).
Proof.
  do 2 eexists. split; [reflexivity |].
  cbn [StressGraph.sigmaPoints StressGraph.tauPoints].
  split.
  { apply principalMarkers_markersOf. now rewrite !length_map. }
  intros Hs Hne. apply markersOf_expected.
  apply sharedGrid_map_seq; [reflexivity |].
  intros i. cbn [StressGraph.theta].
  pose proof (sampleTheta_even thetaMin thetaMax steps i) as He.
  assert (Hn : 0 < INR steps) by (apply lt_0_INR; lia).
  assert (Hd : (thetaMax - thetaMin) / INR steps <> 0).
  { unfold Rdiv. apply Rmult_integral_contrapositive_currified; [lra |].
    apply Rinv_neq_0_compat. lra. }
  lra.
Qed.

(** * Further properties *)

(** ** Polar form of [Math.atan2] *)

Lemma radius_scaled (x y s : R) :
  0 < s -> s * s = 1 + (y / x) * (y / x) -> x <> 0 ->
  sqrt (x * x + y * y) = Rabs x * s.
Proof.
  intros Hs Es Hx. apply sqrt_lem_1.
  - nra.
  - pose proof (Rabs_pos x). nra.
  - replace (Rabs x * s * (Rabs x * s)) with (Rabs x * Rabs x * (s * s)) by ring.
    rewrite Es. replace (Rabs x * Rabs x) with (x * x).
    + field. exact Hx.
    + unfold Rabs. destruct (Rcase_abs x); ring.
Qed.

Lemma atan_polar (x y : R) :
  x <> 0 ->
  sqrt (x * x + y * y) * cos (atan (y / x)) = Rabs x
  /\ sqrt (x * x + y * y) * sin (atan (y / x)) = Rabs x * (y / x).
Proof.
  intros Hx. set (t := y / x).
  assert (Hpos : 0 < 1 + t²) by (unfold Rsqr; nra).
  assert (Hs : 0 < sqrt (1 + t²)) by now apply sqrt_lt_R0.
  assert (Es : sqrt (1 + t²) * sqrt (1 + t²) = 1 + t * t).
  { rewrite sqrt_sqrt by lra. reflexivity. }
  rewrite (radius_scaled x y (sqrt (1 + t²)) Hs Es Hx).
  rewrite cos_atan, sin_atan. fold t.
  split; field; lra.
Qed.

Lemma atan2_polar (y x : R) :
  sqrt (x * x + y * y) * cos (JS.atan2 y x) = x
  /\ sqrt (x * x + y * y) * sin (JS.atan2 y x) = y.
Proof.
  unfold JS.atan2.
  destruct (Rlt_dec 0 x) as [Hx | Hx].
  - destruct (atan_polar x y) as [Hc Hs]; [lra |].
    rewrite Hc, Hs, Rabs_pos_eq by lra. split; [reflexivity | field; lra].
  - destruct (Rlt_dec x 0) as [Hx' | Hx'].
    + destruct (atan_polar x y) as [Hc Hs]; [lra |].
      rewrite Rabs_left in Hc, Hs by lra.
      destruct (Rle_dec 0 y).
      * rewrite neg_cos, neg_sin.
        rewrite !Ropp_mult_distr_r_reverse, Hc, Hs. split; [lra | field; lra].
      * rewrite cos_minus, sin_minus, cos_PI, sin_PI.
        replace (cos (atan (y / x)) * -1 + sin (atan (y / x)) * 0)
          with (- cos (atan (y / x))) by ring.
        replace (sin (atan (y / x)) * -1 - cos (atan (y / x)) * 0)
          with (- sin (atan (y / x))) by ring.
        rewrite !Ropp_mult_distr_r_reverse, Hc, Hs. split; [lra | field; lra].
    + assert (x = 0) by lra. subst x.
      replace (0 * 0 + y * y) with (y * y) by ring.
      destruct (Rlt_dec 0 y) as [Hy | Hy].
      * rewrite sqrt_square, cos_PI2, sin_PI2 by lra. lra.
      * destruct (Rlt_dec y 0) as [Hy' | Hy'].
        -- replace (y * y) with ((- y) * (- y)) by ring.
           rewrite sqrt_square by lra.
           rewrite cos_neg, sin_neg, cos_PI2, sin_PI2. lra.
        -- assert (y = 0) by lra. subst y.
           rewrite Rmult_0_l, sqrt_0. lra.
Qed.

Lemma cos_period_Z (x : R) (k : Z) : cos (x + 2 * IZR k * PI) = cos x.
Proof.
  destruct (Z_le_gt_dec 0 k) as [Hk | Hk].
  - rewrite <- (Z2Nat.id k) by exact Hk.
    rewrite <- INR_IZR_INZ. apply cos_period.
  - rewrite <- (cos_period (x + 2 * IZR k * PI) (Z.to_nat (- k))).
    f_equal. rewrite INR_IZR_INZ, Z2Nat.id by lia. rewrite opp_IZR. ring.
Qed.

Lemma sin_period_Z (x : R) (k : Z) : sin (x + 2 * IZR k * PI) = sin x.
Proof.
  destruct (Z_le_gt_dec 0 k) as [Hk | Hk].
  - rewrite <- (Z2Nat.id k) by exact Hk.
    rewrite <- INR_IZR_INZ. apply sin_period.
  - rewrite <- (sin_period (x + 2 * IZR k * PI) (Z.to_nat (- k))).
    f_equal. rewrite INR_IZR_INZ, Z2Nat.id by lia. rewrite opp_IZR. ring.
Qed.

(** ** The stress transformation *)

Lemma rotation_at_principal (diff tau : R) :
  let a := JS.atan2 tau diff in
  diff * cos a + tau * sin a = sqrt (diff * diff + tau * tau)
  /\ - diff * sin a + tau * cos a = 0.
Proof.
  intros a. destruct (atan2_polar tau diff) as [Hc Hs]. fold a in Hc, Hs.
  pose proof (sin2_cos2 a) as H1. unfold Rsqr in H1.
  set (r := sqrt (diff * diff + tau * tau)) in *.
  rewrite <- Hc, <- Hs. split.
  - replace (r * cos a * cos a + r * sin a * sin a)
      with (r * (sin a * sin a + cos a * cos a)) by ring.
    rewrite H1. ring.
  - ring.
Qed.

Lemma rotation_on_circle (diff tau phi : R) :
  (diff * cos phi + tau * sin phi) * (diff * cos phi + tau * sin phi)
  + (- diff * sin phi + tau * cos phi) * (- diff * sin phi + tau * cos phi)
  = diff * diff + tau * tau.
Proof.
  pose proof (sin2_cos2 phi) as H1. unfold Rsqr in H1.
  replace ((diff * cos phi + tau * sin phi) * (diff * cos phi + tau * sin phi)
           + (- diff * sin phi + tau * cos phi) * (- diff * sin phi + tau * cos phi))
    with ((diff * diff + tau * tau) * (sin phi * sin phi + cos phi * cos phi))
    by ring.
  rewrite H1. ring.
Qed.

Lemma getMaxShear_radius (sigmaX sigmaY tauXY : R) :
  App.getMaxShear sigmaX sigmaY tauXY
  = sqrt ((sigmaX - sigmaY) / 2 * ((sigmaX - sigmaY) / 2) + tauXY * tauXY).
Proof. unfold App.getMaxShear. f_equal. ring. Qed.

Lemma toRad_double (theta : R) :
  MohrsCircle.toRad (2 * theta) = 2 * (theta * (PI / 180)).
Proof. unfold MohrsCircle.toRad. field. Qed.

Lemma getMaxShear_nonneg (sigmaX sigmaY tauXY : R) :
  0 <= App.getMaxShear sigmaX sigmaY tauXY
  /\ App.getMaxShear sigmaX sigmaY tauXY * App.getMaxShear sigmaX sigmaY tauXY
     = (sigmaX - sigmaY) / 2 * ((sigmaX - sigmaY) / 2) + tauXY * tauXY.
Proof.
  rewrite getMaxShear_radius. split; [apply sqrt_pos |].
  apply sqrt_sqrt.
  pose proof (Rle_0_sqr ((sigmaX - sigmaY) / 2)). pose proof (Rle_0_sqr tauXY).
  unfold Rsqr in *. lra.
Qed.

(** X1. The principal stresses of the sidebar are ordered, the maximum shear
    is non-negative and is half their difference, and it vanishes exactly
    for the states with equal normal stresses and no shear. *)
Theorem sidebar_principal_stresses (ps : App.params) :
  0 <= App.tauMax ps
  /\ App.sigma2 ps <= App.sigma1 ps
  /\ App.tauMax ps = (App.sigma1 ps - App.sigma2 ps) / 2
  /\ App.sigma1 ps + App.sigma2 ps
     = App.value (App.sigmaX ps) + App.value (App.sigmaY ps)
  /\ (App.tauMax ps = 0
      <-> App.value (App.sigmaX ps) = App.value (App.sigmaY ps)
          /\ App.value (App.tauXY ps) = 0).
Proof.
  unfold App.sigma1, App.sigma2, App.avg, App.tauMax.
  rewrite getMaxShear_radius.
  set (x := App.value (App.sigmaX ps)). set (y := App.value (App.sigmaY ps)).
  set (t := App.value (App.tauXY ps)).
  clearbody x y t.
  assert (Hnn : 0 <= (x - y) / 2 * ((x - y) / 2) + t * t).
  { pose proof (Rle_0_sqr ((x - y) / 2)). pose proof (Rle_0_sqr t).
    unfold Rsqr in *. lra. }
  pose proof (sqrt_pos ((x - y) / 2 * ((x - y) / 2) + t * t)) as Hp.
  split; [lra |]. split; [lra |]. split; [lra |]. split; [lra |].
  split.
  - intros H0. apply sqrt_eq_0 in H0; [| exact Hnn].
    pose proof (Rle_0_sqr ((x - y) / 2)). pose proof (Rle_0_sqr t).
    unfold Rsqr in *.
    assert (Hx : (x - y) / 2 * ((x - y) / 2) = 0) by lra.
    assert (Ht : t * t = 0) by lra.
    apply Rmult_integral in Hx, Ht. split; lra.
  - intros [Exy Et]. rewrite Exy, Et.
    replace ((y - y) / 2 * ((y - y) / 2) + 0 * 0) with 0 by field.
    apply sqrt_0.
Qed.

(** X2. The sidebar of [App] and the [derived] memo of the circle view
    compute the same average stress, maximum shear and principal stresses
    from the same parameters. *)
Theorem sidebar_matches_circle_readout (ps : App.params) (theta : R) :
  let d := MohrsCircle.derived (App.value (App.sigmaX ps))
             (App.value (App.sigmaY ps)) (App.value (App.tauXY ps)) theta in
  App.avg ps = MohrsCircle.avg d
  /\ App.tauMax ps = MohrsCircle.R_ d
  /\ App.sigma1 ps = MohrsCircle.s1 d
  /\ App.sigma2 ps = MohrsCircle.s2 d.
Proof.
  unfold App.sigma1, App.sigma2, App.tauMax, App.avg. simpl.
  rewrite getMaxShear_radius. repeat split.
Qed.

(** X3. In exact real arithmetic (in doubles up to rounding in the last
    digits) the three views transform the stress state by the same
    formulas: a
    sample of [computeCurves], the stresses of [draw] and the live values of
    [derived] coincide at equal angles. *)
Theorem views_share_transformation (sigmaX sigmaY tauXY theta : R) :
  let t := BodyOrientation.transform sigmaX sigmaY tauXY theta in
  let d := MohrsCircle.derived sigmaX sigmaY tauXY theta in
  StressGraph.sigmaAt sigmaX sigmaY tauXY theta
  = BodyOrientation.sigma_x_prime t
  /\ StressGraph.tauAt sigmaX sigmaY tauXY theta = BodyOrientation.tau_prime t
  /\ MohrsCircle.sx_prime d = BodyOrientation.sigma_x_prime t
  /\ MohrsCircle.txy_prime d = BodyOrientation.tau_prime t.
Proof.
  simpl. unfold StressGraph.sigmaAt, StressGraph.tauAt, StressGraph.DEG2RAD,
    BodyOrientation.DEG2RAD.
  rewrite toRad_double. repeat split.
Qed.

(** X4. In exact real arithmetic (in doubles up to rounding in the last
    digits) the transformation of [draw] is the identity at angle 0, has
    period
    180 degrees, and its second normal stress is the first one a quarter
    turn further. *)
Theorem transform_identity_and_period (sigmaX sigmaY tauXY theta : R) :
  BodyOrientation.transform sigmaX sigmaY tauXY 0
  = {| BodyOrientation.sigma_x_prime := sigmaX;
       BodyOrientation.sigma_y_prime := sigmaY;
       BodyOrientation.tau_prime := tauXY |}
  /\ BodyOrientation.transform sigmaX sigmaY tauXY (theta + 180)
     = BodyOrientation.transform sigmaX sigmaY tauXY theta
  /\ BodyOrientation.sigma_y_prime
       (BodyOrientation.transform sigmaX sigmaY tauXY theta)
     = BodyOrientation.sigma_x_prime
         (BodyOrientation.transform sigmaX sigmaY tauXY (theta + 90)).
Proof.
  pose proof PI_RGT_0 as Hpi.
  unfold BodyOrientation.transform, BodyOrientation.DEG2RAD.
  repeat split.
  - replace (2 * (0 * (PI / 180))) with 0 by field.
    rewrite cos_0, sin_0. f_equal; field.
  - replace (2 * ((theta + 180) * (PI / 180)))
      with (2 * (theta * (PI / 180)) + 2 * IZR 1 * PI) by field.
    now rewrite cos_period_Z, sin_period_Z.
  - cbn [BodyOrientation.sigma_y_prime BodyOrientation.sigma_x_prime].
    replace (2 * ((theta + 90) * (PI / 180)))
      with (2 * (theta * (PI / 180)) + PI) by field.
    rewrite neg_cos, neg_sin. ring.
Qed.

Lemma sample_on_circle (sigmaX sigmaY tauXY theta : R) :
  let avg := (sigmaX + sigmaY) / 2 in
  let r := App.getMaxShear sigmaX sigmaY tauXY in
  (StressGraph.sigmaAt sigmaX sigmaY tauXY theta - avg)
  * (StressGraph.sigmaAt sigmaX sigmaY tauXY theta - avg)
  + StressGraph.tauAt sigmaX sigmaY tauXY theta
    * StressGraph.tauAt sigmaX sigmaY tauXY theta
  = r * r.
Proof.
  intros avg r. subst avg r. rewrite getMaxShear_radius.
  unfold StressGraph.sigmaAt, StressGraph.tauAt.
  set (phi := 2 * (theta * StressGraph.DEG2RAD)).
  set (diff := (sigmaX - sigmaY) / 2).
  rewrite sqrt_sqrt.
  - rewrite <- (rotation_on_circle diff tauXY phi). ring.
  - pose proof (Rle_0_sqr diff). pose proof (Rle_0_sqr tauXY).
    unfold Rsqr in *. lra.
Qed.

(** X5. In exact real arithmetic and for at least one step, every sample
    produced by [computeCurves] lies on Mohr's circle: the sigma samples
    stay between the two principal stresses of the sidebar and the tau
    samples between minus and plus the maximum shear. *)
Theorem samples_within_principal_stresses
    (ps : App.params) (thetaMin thetaMax : R) (steps : nat) :
  (1 <= steps)%nat ->
  exists c,
    StressGraph.computeCurves (App.value (App.sigmaX ps))
      (App.value (App.sigmaY ps)) (App.value (App.tauXY ps))
      thetaMin thetaMax steps = JS.Normal c
    /\ (forall p, In p (StressGraph.sigmaPoints c) ->
          App.sigma2 ps <= StressGraph.value p <= App.sigma1 ps)
    /\ (forall p, In p (StressGraph.tauPoints c) ->
          - App.tauMax ps <= StressGraph.value p <= App.tauMax ps).
Proof.
  intros _. eexists. split; [reflexivity |].
  cbn [StressGraph.sigmaPoints StressGraph.tauPoints].
  set (x := App.value (App.sigmaX ps)). set (y := App.value (App.sigmaY ps)).
  set (t := App.value (App.tauXY ps)).
  assert (Hb : forall theta,
             App.sigma2 ps <= StressGraph.sigmaAt x y t theta <= App.sigma1 ps
             /\ - App.tauMax ps <= StressGraph.tauAt x y t theta
                <= App.tauMax ps).
  { intros theta. pose proof (sample_on_circle x y t theta) as E. simpl in E.
    unfold App.sigma1, App.sigma2, App.avg, App.tauMax. fold x y t.
    pose proof (proj1 (getMaxShear_nonneg x y t)) as Hr.
    set (r := App.getMaxShear x y t) in *.
    set (u := StressGraph.sigmaAt x y t theta - (x + y) / 2) in *.
    set (v := StressGraph.tauAt x y t theta) in *.
    assert (u * u <= r * r /\ v * v <= r * r).
    { pose proof (Rle_0_sqr u). pose proof (Rle_0_sqr v).
      unfold Rsqr in *. lra. }
    assert (- r <= u <= r /\ - r <= v <= r) by (repeat split; nra).
    unfold u in *. lra. }
  split; intros p Hin; apply in_map_iff in Hin; destruct Hin as (i & <- & _);
    cbn [StressGraph.value]; apply Hb.
Qed.

Lemma samples_within_principal_stresses_witness :
  (1 <= 2)%nat
  /\ exists c,
       StressGraph.computeCurves (App.value (App.sigmaX App.INITIAL))
         (App.value (App.sigmaY App.INITIAL))
         (App.value (App.tauXY App.INITIAL)) 0 180 2 = JS.Normal c
       /\ (forall p, In p (StressGraph.sigmaPoints c) ->
             App.sigma2 App.INITIAL <= StressGraph.value p
             <= App.sigma1 App.INITIAL)
       /\ (forall p, In p (StressGraph.tauPoints c) ->
             - App.tauMax App.INITIAL <= StressGraph.value p
             <= App.tauMax App.INITIAL).
Proof.
  split; [lia |].
  apply (samples_within_principal_stresses App.INITIAL 0 180 2). lia.
Defined.

Lemma toRad_thetaP1 (tauXY diff : R) :
  MohrsCircle.toRad (2 * (JS.atan2 tauXY diff * 180 / PI / 2))
  = JS.atan2 tauXY diff.
Proof. pose proof PI_RGT_0. unfold MohrsCircle.toRad. field. lra. Qed.

(** X6. In exact real arithmetic (in doubles up to rounding in the last
    digits): rotating the element to the angle [thetaP1] reported by
    [derived]
    removes the shear and brings the normal stress to [s1]; at [thetaP2] the
    shear vanishes again and the normal stress is [s2]; at [thetaS1] the
    normal stress is the average and the shear equals the radius. *)
Theorem derived_angles_are_principal (sigmaX sigmaY tauXY theta : R) :
  let d := MohrsCircle.derived sigmaX sigmaY tauXY theta in
  let at_ := MohrsCircle.derived sigmaX sigmaY tauXY in
  MohrsCircle.txy_prime (at_ (MohrsCircle.thetaP1 d)) = 0
  /\ MohrsCircle.sx_prime (at_ (MohrsCircle.thetaP1 d)) = MohrsCircle.s1 d
  /\ MohrsCircle.txy_prime (at_ (MohrsCircle.thetaP2 d)) = 0
  /\ MohrsCircle.sx_prime (at_ (MohrsCircle.thetaP2 d)) = MohrsCircle.s2 d
  /\ MohrsCircle.sx_prime (at_ (MohrsCircle.thetaS1 d)) = MohrsCircle.avg d
  /\ MohrsCircle.txy_prime (at_ (MohrsCircle.thetaS1 d)) = MohrsCircle.R_ d.
Proof.
  pose proof PI_RGT_0 as Hpi.
  cbn [MohrsCircle.derived MohrsCircle.txy_prime MohrsCircle.sx_prime
       MohrsCircle.thetaP1 MohrsCircle.thetaP2 MohrsCircle.thetaS1
       MohrsCircle.s1 MohrsCircle.s2 MohrsCircle.avg MohrsCircle.R_].
  set (diff := (sigmaX - sigmaY) / 2).
  set (a := JS.atan2 tauXY diff).
  assert (E1 : MohrsCircle.toRad (2 * (a * 180 / PI / 2)) = a)
    by apply toRad_thetaP1.
  assert (E2 : MohrsCircle.toRad (2 * (a * 180 / PI / 2 + 90)) = a + PI).
  { rewrite <- E1 at 2. unfold MohrsCircle.toRad. field. lra. }
  assert (E3 : MohrsCircle.toRad (2 * (a * 180 / PI / 2 - 45)) = a - PI / 2).
  { rewrite <- E1 at 2. unfold MohrsCircle.toRad. field. lra. }
  rewrite E1, E2, E3. rewrite neg_cos, neg_sin.
  rewrite cos_minus, sin_minus, cos_PI2, sin_PI2.
  destruct (rotation_at_principal diff tauXY) as [Hr H0]. fold a in Hr, H0.
  set (r := sqrt (diff * diff + tauXY * tauXY)) in *.
  repeat split; lra.
Qed.

(** X7. In exact real arithmetic (in doubles up to rounding in the last
    digits): whenever the sidebar shows two principal angles, the shear
    curve of
    the graph is zero at both of them, and the sigma curve takes there the
    two principal stresses of the sidebar, [sigma1] at the first angle and
    [sigma2] at the second. *)
Theorem sidebar_angles_are_zero_crossings (ps : App.params) (a0 a1 : R) :
  App.principals ps = Some [a0; a1] ->
  let sigmaAt := StressGraph.sigmaAt (App.value (App.sigmaX ps))
                   (App.value (App.sigmaY ps)) (App.value (App.tauXY ps)) in
  let tauAt := StressGraph.tauAt (App.value (App.sigmaX ps))
                 (App.value (App.sigmaY ps)) (App.value (App.tauXY ps)) in
  tauAt a0 = 0 /\ sigmaAt a0 = App.sigma1 ps
  /\ tauAt a1 = 0 /\ sigmaAt a1 = App.sigma2 ps.
Proof.
  pose proof PI_RGT_0 as Hpi.
  unfold App.principals, App.sigma1, App.sigma2, App.avg, App.tauMax.
  set (x := App.value (App.sigmaX ps)). set (y := App.value (App.sigmaY ps)).
  set (t := App.value (App.tauXY ps)). clearbody x y t.
  intros Hp. cbv zeta.
  assert (Hnd : ~ Spec.degenerate x y t).
  { intros Hd. apply getPrincipalAngles_null_iff in Hd. congruence. }
  rewrite (getPrincipalAngles_some x y t Hnd) in Hp.
  inversion Hp as [[E0 E1]]. clear Hp.
  destruct (normalize180_congr (App.principalAngle x y t)) as [k0 Hk0].
  destruct (normalize180_congr (App.principalAngle x y t + 90)) as [k1 Hk1].
  rewrite Hk0, Hk1. clear E0 E1 Hk0 Hk1.
  rewrite getMaxShear_radius.
  rewrite <- (thetaP1_eq_principalAngle x y t 0).
  cbn [MohrsCircle.thetaP1 MohrsCircle.derived].
  unfold StressGraph.sigmaAt, StressGraph.tauAt, StressGraph.DEG2RAD.
  set (diff := (x - y) / 2). set (a := JS.atan2 t diff).
  replace (2 * ((a * 180 / PI / 2 + 180 * IZR k0) * (PI / 180)))
    with (a + 2 * IZR k0 * PI) by (field; lra).
  replace (2 * ((a * 180 / PI / 2 + 90 + 180 * IZR k1) * (PI / 180)))
    with (a + PI + 2 * IZR k1 * PI) by (field; lra).
  rewrite !cos_period_Z, !sin_period_Z, neg_cos, neg_sin.
  destruct (rotation_at_principal diff t) as [Hr H0]. fold a in Hr, H0.
  set (r := sqrt (diff * diff + t * t)) in *.
  repeat split; lra.
Qed.

Lemma sidebar_angles_are_zero_crossings_witness :
  let a0 := App.normalize180 (App.principalAngle 80 (-40) 50) in
  let a1 := App.normalize180 (App.principalAngle 80 (-40) 50 + 90) in
  App.principals App.INITIAL = Some [a0; a1]
  /\ StressGraph.tauAt 80 (-40) 50 a0 = 0
  /\ StressGraph.sigmaAt 80 (-40) 50 a0 = App.sigma1 App.INITIAL
  /\ StressGraph.tauAt 80 (-40) 50 a1 = 0
  /\ StressGraph.sigmaAt 80 (-40) 50 a1 = App.sigma2 App.INITIAL.
Proof.
  intros a0 a1.
  assert (H : App.principals App.INITIAL = Some [a0; a1]).
  { unfold App.principals. simpl. apply getPrincipalAngles_some.
    unfold Spec.degenerate. intros [_ H]. rewrite Rabs_pos_eq in H; lra. }
  split; [exact H |].
  exact (sidebar_angles_are_zero_crossings App.INITIAL a0 a1 H).
Defined.

(** ** Markers, axis scaling and plot coordinates of the graph *)

Lemma crossing_fraction (a b : StressGraph.point) :
  StressGraph.crosses a b = true ->
  0 <= Spec.fraction a b <= 1
  /\ Spec.fraction a b * (StressGraph.value b - StressGraph.value a)
     = - StressGraph.value a.
Proof.
  intros H. apply crosses_true_iff in H. destruct H as [Hprod Hgap].
  unfold Spec.fraction.
  set (va := StressGraph.value a) in *. set (vb := StressGraph.value b) in *.
  clearbody va vb.
  assert (Hne : vb - va <> 0).
  { intros E. replace (va - vb) with 0 in Hgap by lra.
    rewrite Rabs_R0 in Hgap. lra. }
  assert (Ef : (0 - va) / (vb - va) * (vb - va) = - va) by (field; exact Hne).
  split; [| exact Ef].
  set (f := (0 - va) / (vb - va)) in *. clearbody f.
  assert (Hsign : (va <= 0 <= vb /\ 0 < vb - va)
                  \/ (vb <= 0 <= va /\ vb - va < 0)).
  { destruct (Rle_lt_dec va 0) as [Ha | Ha];
      destruct (Rle_lt_dec vb 0) as [Hb | Hb].
    - assert (Hz : va * vb = 0) by nra.
      apply Rmult_integral in Hz. destruct Hz; [right | left]; lra.
    - left. lra.
    - right. lra.
    - nra. }
  destruct Hsign as [[Hs Hd] | [Hs Hd]]; split; nra.
Qed.

(** X8. A marker is placed inside the sample interval that contains the sign
    change: for a crossing pair the interpolation fraction lies in [[0, 1]],
    the straight line through the two tau samples is zero at the crossing
    angle, the crossing angle lies between the two sample angles, and on a
    shared grid the marker's sigma value lies between the two sigma
    samples. *)
Theorem crossing_inside_sample_interval (a b s0 s1 : StressGraph.point) :
  StressGraph.crosses a b = true ->
  StressGraph.theta s0 = StressGraph.theta a ->
  StressGraph.theta s1 = StressGraph.theta b ->
  StressGraph.theta a <> StressGraph.theta b ->
  0 <= Spec.fraction a b <= 1
  /\ StressGraph.value a
     + Spec.fraction a b * (StressGraph.value b - StressGraph.value a) = 0
  /\ Spec.between (StressGraph.theta a) (StressGraph.theta b)
       (StressGraph.tCrossOf a b)
  /\ Spec.between (StressGraph.value s0) (StressGraph.value s1)
       (StressGraph.sValOf s0 s1 (StressGraph.tCrossOf a b)).
Proof.
  intros Hc E0 E1 Hne.
  destruct (crossing_fraction a b Hc) as [Hf Hz].
  rewrite (sValOf_same_fraction a b s0 s1 E0 E1 Hne).
  unfold StressGraph.tCrossOf. fold (Spec.fraction a b).
  set (f := Spec.fraction a b) in *. clearbody f.
  unfold Spec.between.
  split; [exact Hf |]. split; [lra |]. split.
  - destruct (Rle_lt_dec (StressGraph.theta a) (StressGraph.theta b));
      [left | right]; split; nra.
  - destruct (Rle_lt_dec (StressGraph.value s0) (StressGraph.value s1));
      [left | right]; split; nra.
Qed.

Lemma crossing_inside_sample_interval_witness :
  let a := {| StressGraph.theta := 0; StressGraph.value := 2 |} in
  let b := {| StressGraph.theta := 10; StressGraph.value := - 2 |} in
  let s0 := {| StressGraph.theta := 0; StressGraph.value := 1 |} in
  let s1 := {| StressGraph.theta := 10; StressGraph.value := 3 |} in
  StressGraph.crosses a b = true
  /\ 0 <= Spec.fraction a b <= 1
  /\ StressGraph.value a
     + Spec.fraction a b * (StressGraph.value b - StressGraph.value a) = 0
  /\ Spec.between (StressGraph.theta a) (StressGraph.theta b)
       (StressGraph.tCrossOf a b)
  /\ Spec.between (StressGraph.value s0) (StressGraph.value s1)
       (StressGraph.sValOf s0 s1 (StressGraph.tCrossOf a b)).
Proof.
  intros a b s0 s1.
  assert (Hc : StressGraph.crosses a b = true).
  { apply crosses_true_iff. simpl. split; [lra |].
    unfold Rabs. destruct (Rcase_abs _); lra. }
  split; [exact Hc |].
  apply (crossing_inside_sample_interval a b s0 s1 Hc); simpl; try reflexivity.
  lra.
Defined.

Lemma fold_min_spec (l : list R) :
  forall x,
    fold_left Rmin l x <= x
    /\ (forall v, In v l -> fold_left Rmin l x <= v)
    /\ In (fold_left Rmin l x) (x :: l).
Proof.
  induction l as [| y l IH]; intros x.
  - simpl. repeat split; [lra | easy | now left].
  - cbn [fold_left]. destruct (IH (Rmin x y)) as (H1 & H2 & H3).
    pose proof (Rmin_l x y). pose proof (Rmin_r x y).
    repeat split.
    + lra.
    + intros v [<- | Hv]; [lra | now apply H2].
    + destruct H3 as [H3 | H3].
      * rewrite <- H3. unfold Rmin. destruct (Rle_dec x y); simpl; auto.
      * right. now right.
Qed.

Lemma fold_max_spec (l : list R) :
  forall x,
    x <= fold_left Rmax l x
    /\ (forall v, In v l -> v <= fold_left Rmax l x)
    /\ In (fold_left Rmax l x) (x :: l).
Proof.
  induction l as [| y l IH]; intros x.
  - simpl. repeat split; [lra | easy | now left].
  - cbn [fold_left]. destruct (IH (Rmax x y)) as (H1 & H2 & H3).
    pose proof (Rmax_l x y). pose proof (Rmax_r x y).
    repeat split.
    + lra.
    + intros v [<- | Hv]; [lra | now apply H2].
    + destruct H3 as [H3 | H3].
      * rewrite <- H3. unfold Rmax. destruct (Rle_dec x y); simpl; auto.
      * right. now right.
Qed.

Lemma autoScale_bounds (values : list R) :
  values <> [] ->
  exists ax rawMin rawMax,
    StressGraph.autoScale values = Some ax
    /\ In rawMin values /\ In rawMax values
    /\ (forall v, In v values -> rawMin <= v <= rawMax)
    /\ (forall v, In v values ->
          StressGraph.yMin ax < v < StressGraph.yMax ax)
    /\ StressGraph.yMin ax < StressGraph.yMax ax
    /\ (rawMin < rawMax ->
        rawMin - StressGraph.yMin ax = 0.12 * (rawMax - rawMin)
        /\ StressGraph.yMax ax - rawMax = 0.12 * (rawMax - rawMin))
    /\ (rawMin = rawMax ->
        StressGraph.yMax ax - StressGraph.yMin ax = 0.24).
Proof.
  intros Hne. destruct values as [| x l]; [contradiction |].
  destruct (fold_min_spec l x) as (M1 & M2 & M3).
  destruct (fold_max_spec l x) as (N1 & N2 & N3).
  unfold StressGraph.autoScale, JS.minOf, JS.maxOf.
  set (lo := fold_left Rmin l x) in *. set (hi := fold_left Rmax l x) in *.
  clearbody lo hi.
  assert (Hin : forall v, In v (x :: l) -> lo <= v <= hi).
  { intros v [<- | Hv]; [lra |]. split; [now apply M2 | now apply N2]. }
  assert (Hpad : 0 < JS.orElse (hi - lo) 1 * 0.12
                 /\ (lo < hi -> JS.orElse (hi - lo) 1 = hi - lo)
                 /\ (lo = hi -> JS.orElse (hi - lo) 1 = 1)).
  { unfold JS.orElse. destruct (Req_dec_T (hi - lo) 0) as [E | E].
    - repeat split; intros; lra.
    - assert (lo <= hi) by (destruct (Hin x); [now left | lra]).
      repeat split; intros; lra. }
  destruct Hpad as (Hp & Hlt & Heq).
  exists {| StressGraph.yMin := lo - JS.orElse (hi - lo) 1 * 0.12;
            StressGraph.yMax := hi + JS.orElse (hi - lo) 1 * 0.12 |}, lo, hi.
  cbn [StressGraph.yMin StressGraph.yMax].
  split; [reflexivity |]. split; [exact M3 |]. split; [exact N3 |].
  split; [exact Hin |].
  split; [intros v Hv; specialize (Hin v Hv); lra |].
  split; [specialize (Hin x (or_introl eq_refl)); lra |].
  split; intros H.
  - rewrite (Hlt H). lra.
  - rewrite (Heq H). lra.
Qed.

(** X9. For every non-empty list of values the axis range of [render] is
    defined, is never empty (a flat curve gets the height 0.24), contains
    every value strictly inside, and leaves a margin of 12 percent of the
    value range on both sides. *)
Theorem autoScale_encloses_values (values : list R) :
  values <> [] ->
  exists ax rawMin rawMax,
    StressGraph.autoScale values = Some ax
    /\ In rawMin values /\ In rawMax values
    /\ (forall v, In v values -> rawMin <= v <= rawMax)
    /\ (forall v, In v values ->
          StressGraph.yMin ax < v < StressGraph.yMax ax)
    /\ StressGraph.yMin ax < StressGraph.yMax ax
    /\ (rawMin < rawMax ->
        rawMin - StressGraph.yMin ax = 0.12 * (rawMax - rawMin)
        /\ StressGraph.yMax ax - rawMax = 0.12 * (rawMax - rawMin))
    /\ (rawMin = rawMax ->
        StressGraph.yMax ax - StressGraph.yMin ax = 0.24).
Proof. apply autoScale_bounds. Qed.

Lemma autoScale_encloses_values_witness :
  [1; -2; 3] <> []
  /\ exists ax rawMin rawMax,
       StressGraph.autoScale [1; -2; 3] = Some ax
       /\ In rawMin [1; -2; 3] /\ In rawMax [1; -2; 3]
       /\ (forall v, In v [1; -2; 3] -> rawMin <= v <= rawMax)
       /\ (forall v, In v [1; -2; 3] ->
             StressGraph.yMin ax < v < StressGraph.yMax ax)
       /\ StressGraph.yMin ax < StressGraph.yMax ax
       /\ (rawMin < rawMax ->
           rawMin - StressGraph.yMin ax = 0.12 * (rawMax - rawMin)
           /\ StressGraph.yMax ax - rawMax = 0.12 * (rawMax - rawMin))
       /\ (rawMin = rawMax ->
           StressGraph.yMax ax - StressGraph.yMin ax = 0.24).
Proof.
  split; [discriminate |].
  apply (autoScale_encloses_values [1; -2; 3]). discriminate.
Defined.

Lemma ratio_bounds (a b x : R) :
  a < b -> a <= x <= b -> 0 <= (x - a) / (b - a) <= 1.
Proof.
  intros Hab Hx.
  assert (Hi : 0 < / (b - a)) by (apply Rinv_0_lt_compat; lra).
  assert (E : (b - a) * / (b - a) = 1) by (apply Rinv_r; lra).
  unfold Rdiv. split; nra.
Qed.

Lemma xScale_inside (padL thetaMin thetaMax plotW theta : R) :
  thetaMin < thetaMax -> 0 <= plotW -> thetaMin <= theta <= thetaMax ->
  padL <= StressGraph.xScale padL thetaMin thetaMax plotW theta
       <= padL + plotW.
Proof.
  intros Hr Hw Ht. unfold StressGraph.xScale.
  pose proof (ratio_bounds thetaMin thetaMax theta Hr Ht).
  set (q := (theta - thetaMin) / (thetaMax - thetaMin)) in *. clearbody q.
  split; nra.
Qed.

Lemma yScale_inside (padT yMin yMax plotH v : R) :
  yMin < yMax -> 0 <= plotH -> yMin <= v <= yMax ->
  padT <= StressGraph.yScale padT yMin yMax plotH v <= padT + plotH.
Proof.
  intros Hr Hh Hv. unfold StressGraph.yScale.
  pose proof (ratio_bounds yMin yMax v Hr Hv).
  set (q := (v - yMin) / (yMax - yMin)) in *. clearbody q.
  split; nra.
Qed.

Lemma sampleTheta_inside (thetaMin thetaMax : R) (steps i : nat) :
  thetaMin < thetaMax -> (1 <= steps)%nat -> (i <= steps)%nat ->
  thetaMin <= StressGraph.sampleTheta thetaMin thetaMax steps i <= thetaMax.
Proof.
  intros Hr Hs Hi. unfold StressGraph.sampleTheta.
  assert (Hn : 0 < INR steps) by (apply lt_0_INR; lia).
  assert (H0 : 0 <= INR i) by apply pos_INR.
  assert (H1 : INR i <= INR steps) by now apply le_INR.
  assert (Hq : 0 <= (INR i - 0) / (INR steps - 0) <= 1)
    by (apply ratio_bounds; lra).
  replace ((INR i - 0) / (INR steps - 0)) with (INR i / INR steps) in Hq
    by (unfold Rdiv; rewrite !Rminus_0_r; reflexivity).
  set (q := INR i / INR steps) in *. clearbody q.
  split; nra.
Qed.

(** X10. With ordered bounds, at least one step and a plot area of
    non-negative size, every sample of both curves is drawn inside the plot
    rectangle: its abscissa lies between the left and right border and its
    ordinate between the top and bottom border. *)
Theorem samples_drawn_inside_plot
    (sigmaX sigmaY tauXY thetaMin thetaMax W H : R) (steps : nat) :
  thetaMin < thetaMax -> (1 <= steps)%nat ->
  0 <= StressGraph.plotW W -> 0 <= StressGraph.plotH H ->
  exists c ax,
    StressGraph.computeCurves sigmaX sigmaY tauXY thetaMin thetaMax steps
    = JS.Normal c
    /\ StressGraph.autoScale (StressGraph.allValues c) = Some ax
    /\ forall p,
         In p (StressGraph.sigmaPoints c ++ StressGraph.tauPoints c) ->
         StressGraph.padL
         <= StressGraph.xScale StressGraph.padL thetaMin thetaMax
              (StressGraph.plotW W) (StressGraph.theta p)
         <= StressGraph.padL + StressGraph.plotW W
         /\ StressGraph.padT
            <= StressGraph.yScale StressGraph.padT (StressGraph.yMin ax)
                 (StressGraph.yMax ax) (StressGraph.plotH H)
                 (StressGraph.value p)
            <= StressGraph.padT + StressGraph.plotH H.
Proof.
  intros Hr Hs Hw Hh. unfold StressGraph.computeCurves.
  match goal with
  | |- exists c ax, JS.Normal ?v = JS.Normal c /\ _ => set (curves := v)
  end.
  exists curves.
  destruct (autoScale_bounds (StressGraph.allValues curves))
    as (ax & lo & hi & Ea & _ & _ & _ & Hin & Hlt & _).
  { unfold StressGraph.allValues, curves. simpl. discriminate. }
  exists ax. split; [reflexivity |]. split; [exact Ea |].
  intros p Hp. split.
  - apply xScale_inside; [exact Hr | exact Hw |].
    unfold curves in Hp. cbn [StressGraph.sigmaPoints StressGraph.tauPoints] in Hp.
    apply in_app_or in Hp.
    destruct Hp as [Hp | Hp]; apply in_map_iff in Hp;
      destruct Hp as (i & <- & Hi); apply in_seq in Hi;
      cbn [StressGraph.theta]; apply sampleTheta_inside; try assumption; lia.
  - apply yScale_inside; [exact Hlt | exact Hh |].
    assert (Hv : In (StressGraph.value p) (StressGraph.allValues curves)).
    { unfold StressGraph.allValues. apply in_or_app.
      apply in_app_or in Hp. destruct Hp; [left | right]; now apply in_map. }
    specialize (Hin _ Hv). lra.
Qed.

Lemma samples_drawn_inside_plot_witness :
  0 < 180 /\ (1 <= 2)%nat
  /\ 0 <= StressGraph.plotW 800 /\ 0 <= StressGraph.plotH 600
  /\ exists c ax,
       StressGraph.computeCurves 80 (-40) 50 0 180 2 = JS.Normal c
       /\ StressGraph.autoScale (StressGraph.allValues c) = Some ax
       /\ forall p,
            In p (StressGraph.sigmaPoints c ++ StressGraph.tauPoints c) ->
            StressGraph.padL
            <= StressGraph.xScale StressGraph.padL 0 180
                 (StressGraph.plotW 800) (StressGraph.theta p)
            <= StressGraph.padL + StressGraph.plotW 800
            /\ StressGraph.padT
               <= StressGraph.yScale StressGraph.padT (StressGraph.yMin ax)
                    (StressGraph.yMax ax) (StressGraph.plotH 600)
                    (StressGraph.value p)
               <= StressGraph.padT + StressGraph.plotH 600.
Proof.
  assert (Hw : 0 <= StressGraph.plotW 800).
  { unfold StressGraph.plotW, StressGraph.padL, StressGraph.padR. lra. }
  assert (Hh : 0 <= StressGraph.plotH 600).
  { unfold StressGraph.plotH, StressGraph.padT, StressGraph.padB. lra. }
  split; [lra |]. split; [lia |]. split; [exact Hw |]. split; [exact Hh |].
  apply (samples_drawn_inside_plot 80 (-40) 50 0 180 800 600 2);
    [lra | lia | exact Hw | exact Hh].
Defined.

(** ** Arrival of the smoothers *)

Lemma lerpTheta_fixed (t : R) : BodyOrientation.lerpTheta t t = t.
Proof.
  destruct (lerpTheta_cases t t) as [[_ E] | [H _]]; [exact E |].
  replace (t - t) with 0 in H by lra. rewrite Rabs_R0 in H. lra.
Qed.

Lemma lerpThetaN_outer (n : nat) :
  forall d t,
    BodyOrientation.lerpThetaN (S n) d t
    = BodyOrientation.lerpTheta (BodyOrientation.lerpThetaN n d t) t.
Proof.
  induction n as [| n IH]; intros d t; [reflexivity |].
  cbn [BodyOrientation.lerpThetaN] in *. now rewrite <- IH.
Qed.

Lemma lerpThetaN_stays (n : nat) (t : R) :
  BodyOrientation.lerpThetaN n t t = t.
Proof.
  induction n as [| n IH]; [reflexivity |].
  cbn [BodyOrientation.lerpThetaN]. now rewrite lerpTheta_fixed.
Qed.

Lemma lerpThetaN_add (n m : nat) :
  forall d t,
    BodyOrientation.lerpThetaN (n + m) d t
    = BodyOrientation.lerpThetaN m (BodyOrientation.lerpThetaN n d t) t.
Proof.
  induction n as [| n IH]; intros d t; [reflexivity |].
  cbn [Nat.add BodyOrientation.lerpThetaN]. apply IH.
Qed.

(** X11. The angle smoother arrives: for every displayed angle and target
    there is a number of ticks after which the displayed angle is exactly
    the target and stays there; a displayed angle equal to the target is
    left unchanged. *)
Theorem lerpTheta_arrives (displayTheta targetTheta : R) :
  BodyOrientation.lerpTheta targetTheta targetTheta = targetTheta
  /\ exists N : nat,
       forall n : nat, (N <= n)%nat ->
         BodyOrientation.lerpThetaN n displayTheta targetTheta = targetTheta.
Proof.
  split; [apply lerpTheta_fixed |].
  assert (H86 : Rabs 0.86 < 1) by (rewrite Rabs_pos_eq; lra).
  destruct (geometric_decay 0.86 (displayTheta - targetTheta) 0.01 H86)
    as [N0 HN0]; [lra |].
  exists (S N0). intros n Hn.
  replace n with (S N0 + (n - S N0))%nat by lia.
  rewrite lerpThetaN_add.
  assert (E : BodyOrientation.lerpThetaN (S N0) displayTheta targetTheta
              = targetTheta).
  { rewrite lerpThetaN_outer.
    pose proof (lerpThetaN_error N0 displayTheta targetTheta) as He.
    specialize (HN0 N0 (Nat.le_refl N0)).
    rewrite Rabs_mult, (Rabs_pos_eq (0.86 ^ N0)) in HN0 by (apply pow_le; lra).
    set (x := BodyOrientation.lerpThetaN N0 displayTheta targetTheta) in *.
    destruct (lerpTheta_cases x targetTheta) as [[_ E] | [Hge _]]; [exact E |].
    rewrite Rabs_minus_sym in Hge. lra. }
  rewrite E. apply lerpThetaN_stays.
Qed.

Section DecayInDoubles.

Import PrimFloat.

(** X12. In exact real arithmetic the stress smoother has no snap and never
    stalls: after [n] ticks towards a fixed target the remaining gap of each
    component is [0.88 ^ n] times the initial gap, so a component that
    starts away from its target comes closer with every tick and never
    reaches it exactly.  In the doubles of the source the law does not
    hold: the tick has fixed points short of the target, such as the one
    reached after 273 ticks from 80 towards 3e9, where the gap stays at
    about 1.9e-6. *)
Theorem smooth_gap_decays (n : nat) (d t : StressGraph.params) :
  (StressGraph.sigmaX (StressGraph.smoothN n d t) - StressGraph.sigmaX t
   = 0.88 ^ n * (StressGraph.sigmaX d - StressGraph.sigmaX t)
   /\ StressGraph.sigmaY (StressGraph.smoothN n d t) - StressGraph.sigmaY t
      = 0.88 ^ n * (StressGraph.sigmaY d - StressGraph.sigmaY t)
   /\ StressGraph.tauXY (StressGraph.smoothN n d t) - StressGraph.tauXY t
      = 0.88 ^ n * (StressGraph.tauXY d - StressGraph.tauXY t))
  /\ (StressGraph.sigmaX (StressGraph.smoothN n d t) = StressGraph.sigmaX t
      <-> StressGraph.sigmaX d = StressGraph.sigmaX t)
  /\ (StressGraph.sigmaY (StressGraph.smoothN n d t) = StressGraph.sigmaY t
      <-> StressGraph.sigmaY d = StressGraph.sigmaY t)
  /\ (StressGraph.tauXY (StressGraph.smoothN n d t) = StressGraph.tauXY t
      <-> StressGraph.tauXY d = StressGraph.tauXY t)
  /\ (Doubles.lerpN 273 80%float 3e9%float = 0x1.65a0bbffffffcp+31%float
      /\ Doubles.lerp 0x1.65a0bbffffffcp+31%float 3e9%float Doubles.SPEED
         = 0x1.65a0bbffffffcp+31%float
      /\ ltb 1e-6%float (3e9 - 0x1.65a0bbffffffcp+31)%float = true).
Proof.
  destruct (smoothN_error n d t) as (Ex & Ey & Ez).
  assert (Hq : 0 < 0.88 ^ n) by (apply pow_lt; lra).
  split; [now repeat split |].
  set (q := 0.88 ^ n) in *. clearbody q.
  split; [split; intros H; nra |].
  split; [split; intros H; nra |].
  split; [split; intros H; nra |].
  exact lerp_stalls_in_doubles.
Qed.

End DecayInDoubles.

(** ** Drag to rotate *)

Lemma clamp_0_180 (x : R) :
  0 <= JS.max 0 (JS.min 180 x) <= 180
  /\ (0 <= x <= 180 -> JS.max 0 (JS.min 180 x) = x).
Proof.
  unfold JS.max, JS.min, Rmax, Rmin.
  destruct (Rle_dec 180 x); destruct (Rle_dec 0 _); split; intros; lra.
Qed.

Lemma drag_handle_keeps_range (e : BodyOrientation.event)
    (s : BodyOrientation.pointer) :
  0 <= BodyOrientation.theta s <= 180 ->
  0 <= BodyOrientation.theta (BodyOrientation.handle e s) <= 180.
Proof.
  intros Hs. destruct e; simpl; try exact Hs.
  unfold BodyOrientation.handleMouseMove.
  destruct (BodyOrientation.dragStart s); [| exact Hs].
  cbn [BodyOrientation.theta]. apply clamp_0_180.
Qed.

Lemma drag_run_keeps_range (es : list BodyOrientation.event) :
  forall s,
    0 <= BodyOrientation.theta s <= 180 ->
    0 <= BodyOrientation.theta (BodyOrientation.run es s) <= 180.
Proof.
  induction es as [| e es IH]; intros s Hs; [exact Hs |].
  apply IH. now apply drag_handle_keeps_range.
Qed.

Lemma drag_moves_forget_path (xs : list R) :
  forall s d,
    BodyOrientation.dragStart s = Some d ->
    forall x,
      BodyOrientation.run (map BodyOrientation.MouseMove xs
                           ++ [BodyOrientation.MouseMove x]) s
      = BodyOrientation.handleMouseMove x s.
Proof.
  induction xs as [| y xs IH]; intros s d Hd x; [reflexivity |].
  assert (Er : BodyOrientation.run
                 (map BodyOrientation.MouseMove (y :: xs)
                  ++ [BodyOrientation.MouseMove x]) s
               = BodyOrientation.run
                   (map BodyOrientation.MouseMove xs
                    ++ [BodyOrientation.MouseMove x])
                   (BodyOrientation.handleMouseMove y s)) by reflexivity.
  rewrite Er.
  assert (Hd' : BodyOrientation.dragStart (BodyOrientation.handleMouseMove y s)
                = Some d).
  { unfold BodyOrientation.handleMouseMove. now rewrite Hd. }
  rewrite (IH _ d Hd').
  unfold BodyOrientation.handleMouseMove. rewrite Hd.
  reflexivity.
Qed.

(** X13. Dragging on the element sets the rotation angle to the angle at the
    press plus half a degree per pixel of horizontal travel, clamped to
    [[0, 180]].  It depends on the press and the current pointer position
    only, not on the path in between; pointer moves without a press change
    nothing; and mouse events never take an angle in [[0, 180]] out of that
    range. *)
Theorem drag_to_rotate (s : BodyOrientation.pointer) (x0 x : R) (xs : list R) :
  let dragged :=
    BodyOrientation.run
      (BodyOrientation.MouseDown x0
       :: map BodyOrientation.MouseMove xs ++ [BodyOrientation.MouseMove x]) s in
  BodyOrientation.theta dragged
  = JS.max 0 (JS.min 180 (BodyOrientation.theta s + (x - x0) * 0.5))
  /\ 0 <= BodyOrientation.theta dragged <= 180
  /\ (0 <= BodyOrientation.theta s + (x - x0) * 0.5 <= 180 ->
      BodyOrientation.theta dragged
      = BodyOrientation.theta s + (x - x0) * 0.5)
  /\ (BodyOrientation.dragStart s = None ->
      BodyOrientation.handle (BodyOrientation.MouseMove x) s = s)
  /\ BodyOrientation.handle (BodyOrientation.MouseMove x)
       (BodyOrientation.handle BodyOrientation.MouseUp dragged)
     = BodyOrientation.handle BodyOrientation.MouseUp dragged
  /\ (forall es,
        0 <= BodyOrientation.theta s <= 180 ->
        0 <= BodyOrientation.theta (BodyOrientation.run es s) <= 180).
Proof.
  intros dragged.
  assert (E : BodyOrientation.theta dragged
              = JS.max 0 (JS.min 180 (BodyOrientation.theta s + (x - x0) * 0.5))).
  { assert (Ed : dragged
                 = BodyOrientation.run
                     (map BodyOrientation.MouseMove xs
                      ++ [BodyOrientation.MouseMove x])
                     (BodyOrientation.handleMouseDown x0 s)) by reflexivity.
    rewrite Ed.
    rewrite (drag_moves_forget_path xs (BodyOrientation.handleMouseDown x0 s)
               {| BodyOrientation.dragX := x0;
                  BodyOrientation.dragTheta := BodyOrientation.theta s |}
               eq_refl).
    reflexivity. }
  pose proof (clamp_0_180 (BodyOrientation.theta s + (x - x0) * 0.5)) as [Hr Hid].
  split; [exact E |]. split; [rewrite E; exact Hr |].
  split; [intros H; rewrite E; now apply Hid |].
  split.
  { intros Hn. simpl. unfold BodyOrientation.handleMouseMove. now rewrite Hn. }
  split; [reflexivity |].
  intros es. apply drag_run_keeps_range.
Qed.

(** ** The stress arrows of the element *)

Lemma maxStress_bounds (t : BodyOrientation.transformed) :
  1 <= BodyOrientation.maxStress t
  /\ Rabs (BodyOrientation.sigma_x_prime t) <= BodyOrientation.maxStress t
  /\ Rabs (BodyOrientation.sigma_y_prime t) <= BodyOrientation.maxStress t
  /\ Rabs (BodyOrientation.tau_prime t) <= BodyOrientation.maxStress t.
Proof.
  unfold BodyOrientation.maxStress, JS.max, JS.abs.
  set (a := Rabs (BodyOrientation.sigma_x_prime t)).
  set (b := Rabs (BodyOrientation.sigma_y_prime t)).
  set (c := Rabs (BodyOrientation.tau_prime t)).
  pose proof (Rmax_l (Rmax (Rmax a b) c) 1).
  pose proof (Rmax_r (Rmax (Rmax a b) c) 1).
  pose proof (Rmax_l (Rmax a b) c). pose proof (Rmax_r (Rmax a b) c).
  pose proof (Rmax_l a b). pose proof (Rmax_r a b).
  repeat split; lra.
Qed.

Lemma side_nonneg (W H : R) : 0 <= W -> 0 <= H -> 0 <= BodyOrientation.side W H.
Proof.
  intros Hw Hh. unfold BodyOrientation.side, JS.min, Rmin.
  destruct (Rle_dec W H); lra.
Qed.

Lemma arrow_length_bound (W H stress : R) (t : BodyOrientation.transformed) :
  0 <= W -> 0 <= H -> Rabs stress <= BodyOrientation.maxStress t ->
  Rabs (stress * BodyOrientation.arrowScale W H t)
  <= BodyOrientation.side W H * 0.55.
Proof.
  intros Hw Hh Hs. pose proof (side_nonneg W H Hw Hh) as Hside.
  destruct (maxStress_bounds t) as [H1 _].
  unfold BodyOrientation.arrowScale.
  set (m := BodyOrientation.maxStress t) in *.
  set (sd := BodyOrientation.side W H) in *. clearbody m sd.
  assert (Hi : 0 < / m) by (apply Rinv_0_lt_compat; lra).
  assert (Em : m * / m = 1) by (apply Rinv_r; lra).
  unfold Rdiv. rewrite Rabs_mult.
  rewrite (Rabs_pos_eq (sd * 0.55 * / m))
    by (apply Rmult_le_pos; [lra | lra]).
  pose proof (Rabs_pos stress) as Hp.
  set (q := Rabs stress * / m).
  assert (Hq : 0 <= q <= 1) by (unfold q; split; nra).
  replace (Rabs stress * (sd * 0.55 * / m)) with (q * (sd * 0.55))
    by (unfold q; ring).
  nra.
Qed.

(** X14. No stress arrow of the element is longer than 0.55 times the side
    of the drawn square, whatever the stresses are: both components of each
    of the eight arrows are bounded by that length. *)
Theorem arrows_are_bounded (W H : R) (t : BodyOrientation.transformed) :
  0 <= W -> 0 <= H ->
  forall a, In a (BodyOrientation.arrows W H t) ->
    Rabs (Spec.forceX a) <= BodyOrientation.side W H * 0.55
    /\ Rabs (Spec.forceY a) <= BodyOrientation.side W H * 0.55.
Proof.
  intros Hw Hh a Hin.
  destruct (maxStress_bounds t) as (_ & Hx & Hy & Ht).
  pose proof (side_nonneg W H Hw Hh) as Hside.
  assert (Hz : Rabs 0 <= BodyOrientation.side W H * 0.55)
    by (rewrite Rabs_R0; lra).
  assert (Hopp : forall s, Rabs s <= BodyOrientation.maxStress t ->
                           Rabs (- s) <= BodyOrientation.maxStress t)
    by (intros s Hs; now rewrite Rabs_Ropp).
  pose proof (fun s Hs => arrow_length_bound W H s t Hw Hh Hs) as Hb.
  unfold BodyOrientation.arrows in Hin. simpl in Hin.
  unfold Spec.forceX, Spec.forceY.
  repeat destruct Hin as [<- | Hin]; try contradiction;
    cbn [BodyOrientation.drawNormalArrow BodyOrientation.drawShearArrow
         BodyOrientation.ex BodyOrientation.ey BodyOrientation.fx
         BodyOrientation.fy];
    split;
    match goal with
    | |- Rabs (?p + ?l - ?p) <= _ =>
        replace (p + l - p) with l by ring; apply Hb; auto
    | |- Rabs (?p - ?l - ?p) <= _ =>
        replace (p - l - p) with (- l) by ring; rewrite Rabs_Ropp;
        apply Hb; auto
    | |- Rabs (?p - ?p) <= _ =>
        replace (p - p) with 0 by ring; exact Hz
    end.
Qed.

Lemma arrows_are_bounded_witness :
  let t := BodyOrientation.transform 80 (-40) 50 0 in
  0 <= 400 /\ 0 <= 300
  /\ forall a, In a (BodyOrientation.arrows 400 300 t) ->
       Rabs (Spec.forceX a) <= BodyOrientation.side 400 300 * 0.55
       /\ Rabs (Spec.forceY a) <= BodyOrientation.side 400 300 * 0.55.
Proof.
  intros t. split; [lra |]. split; [lra |].
  apply (arrows_are_bounded 400 300 t); lra.
Defined.

(** X15. The eight arrows drawn on the element balance: their vectors sum to
    zero in both directions and their moments about the centre of the
    element sum to zero, for every stress state and canvas size. *)
Theorem arrows_are_in_equilibrium (W H : R) (t : BodyOrientation.transformed) :
  Spec.total Spec.forceX (BodyOrientation.arrows W H t) = 0
  /\ Spec.total Spec.forceY (BodyOrientation.arrows W H t) = 0
  /\ Spec.total Spec.moment (BodyOrientation.arrows W H t) = 0.
Proof.
  unfold BodyOrientation.arrows, Spec.total, Spec.moment, Spec.forceX,
    Spec.forceY.
  cbn [fold_right BodyOrientation.drawNormalArrow
       BodyOrientation.drawShearArrow BodyOrientation.ex BodyOrientation.ey
       BodyOrientation.fx BodyOrientation.fy].
  repeat split; ring.
Qed.

(** ** Panning and zooming the circle view *)

Lemma pan_moves_forget_path (ms : list (R * R)) :
  forall v x y,
    MohrsCircle.isPanning v = true ->
    MohrsCircle.run
      (map (fun p => MohrsCircle.MouseMove (fst p) (snd p)) ms
       ++ [MohrsCircle.MouseMove x y]) v
    = MohrsCircle.handleMouseMove x y v.
Proof.
  induction ms as [| [mx' my'] ms IH]; intros v x y Hp; [reflexivity |].
  assert (Er : MohrsCircle.run
                 (map (fun p => MohrsCircle.MouseMove (fst p) (snd p))
                      ((mx', my') :: ms)
                  ++ [MohrsCircle.MouseMove x y]) v
               = MohrsCircle.run
                   (map (fun p => MohrsCircle.MouseMove (fst p) (snd p)) ms
                    ++ [MohrsCircle.MouseMove x y])
                   (MohrsCircle.handleMouseMove mx' my' v)) by reflexivity.
  rewrite Er, IH.
  - unfold MohrsCircle.handleMouseMove. rewrite Hp. simpl. rewrite Hp.
    reflexivity.
  - unfold MohrsCircle.handleMouseMove. rewrite Hp. simpl. exact Hp.
Qed.

(** X16. A pan gesture (press, any number of moves, release) shifts the pan
    by the pointer displacement between the press and the last move,
    whatever the path and whatever the zoom, and leaves the zoom unchanged;
    a pointer move outside a gesture changes nothing. *)
Theorem pan_gesture (v : MohrsCircle.viewport) (x0 y0 x1 y1 : R)
    (ms : list (R * R)) :
  let v' :=
    MohrsCircle.run
      (MohrsCircle.MouseDown x0 y0
       :: map (fun p => MohrsCircle.MouseMove (fst p) (snd p)) ms
       ++ [MohrsCircle.MouseMove x1 y1])
      v in
  let released := MohrsCircle.handle MohrsCircle.MouseUp v' in
  MohrsCircle.panX released = MohrsCircle.panX v + (x1 - x0)
  /\ MohrsCircle.panY released = MohrsCircle.panY v + (y1 - y0)
  /\ MohrsCircle.zoom released = MohrsCircle.zoom v
  /\ MohrsCircle.isPanning released = false
  /\ forall x y,
       MohrsCircle.handle (MohrsCircle.MouseMove x y) released = released.
Proof.
  intros v' released.
  assert (Ev : v' = MohrsCircle.handleMouseMove x1 y1
                      (MohrsCircle.handleMouseDown x0 y0 v)).
  { unfold v'.
    assert (Er : MohrsCircle.run
                   (MohrsCircle.MouseDown x0 y0
                    :: map (fun p => MohrsCircle.MouseMove (fst p) (snd p)) ms
                    ++ [MohrsCircle.MouseMove x1 y1]) v
                 = MohrsCircle.run
                     (map (fun p => MohrsCircle.MouseMove (fst p) (snd p)) ms
                      ++ [MohrsCircle.MouseMove x1 y1])
                     (MohrsCircle.handleMouseDown x0 y0 v)) by reflexivity.
    rewrite Er. now apply pan_moves_forget_path. }
  unfold released. rewrite Ev. simpl. repeat split.
Qed.

Lemma zoomIn_iter (n : nat) :
  forall v,
    MohrsCircle.zoom v <= 8 ->
    MohrsCircle.zoom
      (MohrsCircle.run (repeat MohrsCircle.ClickZoomIn n) v)
    = Rmin (MohrsCircle.zoom v * 1.25 ^ n) 8.
Proof.
  induction n as [| n IH]; intros v Hv.
  - simpl. rewrite Rmult_1_r. unfold Rmin. destruct (Rle_dec _ 8); lra.
  - cbn [repeat MohrsCircle.run fold_left].
    change (MohrsCircle.zoom
              (MohrsCircle.run (repeat MohrsCircle.ClickZoomIn n)
                 (MohrsCircle.zoomInClick v))
            = Rmin (MohrsCircle.zoom v * 1.25 ^ S n) 8).
    assert (Hq : 1 <= 1.25 ^ n) by (apply pow_R1_Rle; lra).
    rewrite IH.
    + simpl. unfold JS.min, Rmin.
      destruct (Rle_dec (MohrsCircle.zoom v * 1.25) 8);
        destruct (Rle_dec _ 8); destruct (Rle_dec _ 8); try lra; nra.
    + simpl. unfold JS.min, Rmin. destruct (Rle_dec _ 8); lra.
Qed.

Lemma zoomOut_iter (n : nat) :
  forall v,
    0.4 <= MohrsCircle.zoom v ->
    MohrsCircle.zoom
      (MohrsCircle.run (repeat MohrsCircle.ClickZoomOut n) v)
    = Rmax (MohrsCircle.zoom v / 1.25 ^ n) 0.4.
Proof.
  induction n as [| n IH]; intros v Hv.
  - simpl. unfold Rdiv. rewrite Rinv_1, Rmult_1_r. unfold Rmax.
    destruct (Rle_dec _ 0.4); lra.
  - cbn [repeat MohrsCircle.run fold_left].
    change (MohrsCircle.zoom
              (MohrsCircle.run (repeat MohrsCircle.ClickZoomOut n)
                 (MohrsCircle.zoomOutClick v))
            = Rmax (MohrsCircle.zoom v / 1.25 ^ S n) 0.4).
    assert (Hq : 0 < 1.25 ^ n) by (apply pow_lt; lra).
    assert (Hi : 0 < / 1.25 ^ n) by now apply Rinv_0_lt_compat.
    assert (E : MohrsCircle.zoom v / 1.25 ^ S n
                = MohrsCircle.zoom v / 1.25 / 1.25 ^ n)
      by (simpl; field; lra).
    assert (Hq1 : / 1.25 ^ n <= 1).
    { rewrite <- Rinv_1. apply Rinv_le_contravar; [lra |].
      apply pow_R1_Rle. lra. }
    rewrite IH.
    + rewrite E. simpl. unfold JS.max, Rdiv.
      set (z := MohrsCircle.zoom v) in *. set (q := / 1.25 ^ n) in *.
      set (a := z * / 1.25). clearbody a q. clear IH E. unfold Rmax.
      assert (Hmono : a <= 0.4 -> a * q <= 0.4 * q)
        by (intros; apply Rmult_le_compat_r; lra).
      destruct (Rle_dec a 0.4) as [Ha | Ha];
        repeat match goal with
               | |- context [Rle_dec ?a ?b] => destruct (Rle_dec a b)
               end; try lra;
        specialize (Hmono Ha); lra.
    + simpl. unfold JS.max, Rmax. destruct (Rle_dec _ 0.4); lra.
Qed.

(** X17. Away from the clamps a zoom step is undone by the opposite step:
    for a zoom in [[0.5, 6.4]] a wheel notch in followed by a notch out, a
    notch out followed by a notch in, and the two button steps in either
    order all return the viewport to what it was. *)
Theorem zoom_steps_undo (v : MohrsCircle.viewport) (dIn dOut : R) :
  dIn < 0 -> 0 <= dOut -> 0.5 <= MohrsCircle.zoom v <= 6.4 ->
  MohrsCircle.handleWheel dOut (MohrsCircle.handleWheel dIn v) = v
  /\ MohrsCircle.handleWheel dIn (MohrsCircle.handleWheel dOut v) = v
  /\ MohrsCircle.zoomOutClick (MohrsCircle.zoomInClick v) = v
  /\ MohrsCircle.zoomInClick (MohrsCircle.zoomOutClick v) = v.
Proof.
  intros Hin Hout Hz. destruct v as [z px py ip ps]. simpl in Hz.
  unfold MohrsCircle.handleWheel, MohrsCircle.zoomOutClick,
    MohrsCircle.zoomInClick, MohrsCircle.setZoom.
  cbn [MohrsCircle.zoom MohrsCircle.panX MohrsCircle.panY
       MohrsCircle.isPanning MohrsCircle.panStart].
  assert (Ein : JS.ltb dIn 0 = true) by now apply ltb_true_iff.
  assert (Eout : JS.ltb dOut 0 = false) by now apply ltb_false_iff.
  rewrite Ein, Eout. unfold JS.min, JS.max.
  replace (1 / 1.12) with (25 / 28) by lra.
  replace (z / 1.25) with (z * 0.8) by lra.
  assert (E1 : Rmin (Rmax (Rmin (Rmax (z * 1.12) 0.4) 8 * (25 / 28)) 0.4) 8 = z).
  { unfold Rmin, Rmax.
    destruct (Rle_dec (z * 1.12) 0.4); [lra |].
    destruct (Rle_dec (z * 1.12) 8); [| lra].
    destruct (Rle_dec (z * 1.12 * (25 / 28)) 0.4); [lra |].
    destruct (Rle_dec (z * 1.12 * (25 / 28)) 8); lra. }
  assert (E2 : Rmin (Rmax (Rmin (Rmax (z * (25 / 28)) 0.4) 8 * 1.12) 0.4) 8 = z).
  { unfold Rmin, Rmax.
    destruct (Rle_dec (z * (25 / 28)) 0.4); [lra |].
    destruct (Rle_dec (z * (25 / 28)) 8); [| lra].
    destruct (Rle_dec (z * (25 / 28) * 1.12) 0.4); [lra |].
    destruct (Rle_dec (z * (25 / 28) * 1.12) 8); lra. }
  assert (E3 : Rmax (Rmin (z * 1.25) 8 / 1.25) 0.4 = z).
  { unfold Rmin, Rmax.
    destruct (Rle_dec (z * 1.25) 8); [| lra].
    replace (z * 1.25 / 1.25) with z by (field; lra).
    destruct (Rle_dec z 0.4); lra. }
  assert (E4 : Rmin (Rmax (z * 0.8) 0.4 * 1.25) 8 = z).
  { unfold Rmin, Rmax.
    destruct (Rle_dec (z * 0.8) 0.4);
      match goal with
      | |- context [Rle_dec ?a ?b] => destruct (Rle_dec a b)
      end; lra. }
  rewrite E1, E2, E3, E4. repeat split.
Qed.

Lemma zoom_steps_undo_witness :
  - 1 < 0 /\ 0 <= 1
  /\ 0.5 <= MohrsCircle.zoom MohrsCircle.initial <= 6.4
  /\ MohrsCircle.handleWheel 1
       (MohrsCircle.handleWheel (- 1) MohrsCircle.initial)
     = MohrsCircle.initial
  /\ MohrsCircle.handleWheel (- 1)
       (MohrsCircle.handleWheel 1 MohrsCircle.initial)
     = MohrsCircle.initial
  /\ MohrsCircle.zoomOutClick (MohrsCircle.zoomInClick MohrsCircle.initial)
     = MohrsCircle.initial
  /\ MohrsCircle.zoomInClick (MohrsCircle.zoomOutClick MohrsCircle.initial)
     = MohrsCircle.initial.
Proof.
  assert (Hz : 0.5 <= MohrsCircle.zoom MohrsCircle.initial <= 6.4)
    by (simpl; lra).
  split; [lra |]. split; [lra |]. split; [exact Hz |].
  apply (zoom_steps_undo MohrsCircle.initial (- 1) 1); [lra | lra | exact Hz].
Defined.

Lemma pow_125_14 (n : nat) : (14 <= n)%nat -> 20 <= 1.25 ^ n.
Proof.
  intros Hn. replace n with (14 + (n - 14))%nat by lia.
  rewrite pow_add.
  assert (H14 : 20 <= 1.25 ^ 14) by (simpl; lra).
  assert (Hr : 1 <= 1.25 ^ (n - 14)) by (apply pow_R1_Rle; lra).
  nra.
Qed.

(** X18. The zoom buttons saturate: from any zoom in [[0.4, 8]], fourteen or
    more clicks on zoom-in leave the zoom at exactly 8, and fourteen or more
    clicks on zoom-out leave it at exactly 0.4. *)
Theorem zoom_buttons_saturate (v : MohrsCircle.viewport) (n : nat) :
  Spec.zoomInRange (MohrsCircle.zoom v) -> (14 <= n)%nat ->
  MohrsCircle.zoom (MohrsCircle.run (repeat MohrsCircle.ClickZoomIn n) v) = 8
  /\ MohrsCircle.zoom (MohrsCircle.run (repeat MohrsCircle.ClickZoomOut n) v)
     = 0.4.
Proof.
  intros [Hlo Hhi] Hn. pose proof (pow_125_14 n Hn) as Hp.
  rewrite zoomIn_iter, zoomOut_iter by assumption.
  set (z := MohrsCircle.zoom v) in *. set (q := 1.25 ^ n) in *. clearbody z q.
  assert (Hi : 0 < / q) by (apply Rinv_0_lt_compat; lra).
  assert (Hi' : / q <= / 20) by (apply Rinv_le_contravar; lra).
  unfold Rmin, Rmax, Rdiv.
  destruct (Rle_dec (z * q) 8); destruct (Rle_dec (z * / q) 0.4);
    split; try lra; nra.
Qed.

Lemma zoom_buttons_saturate_witness :
  Spec.zoomInRange (MohrsCircle.zoom MohrsCircle.initial) /\ (14 <= 14)%nat
  /\ MohrsCircle.zoom
       (MohrsCircle.run (repeat MohrsCircle.ClickZoomIn 14) MohrsCircle.initial)
     = 8
  /\ MohrsCircle.zoom
       (MohrsCircle.run (repeat MohrsCircle.ClickZoomOut 14) MohrsCircle.initial)
     = 0.4.
Proof.
  assert (Hz : Spec.zoomInRange (MohrsCircle.zoom MohrsCircle.initial))
    by (unfold Spec.zoomInRange; simpl; lra).
  split; [exact Hz |]. split; [lia |].
  apply (zoom_buttons_saturate MohrsCircle.initial 14 Hz). lia.
Defined.

(** ** Geometry of the circle view *)

Section CircleGeometry.

Variables sigmaX sigmaY tauXY theta : R.

Local Abbreviation d := (MohrsCircle.derived sigmaX sigmaY tauXY theta).
Local Abbreviation cs := (MohrsCircle.clampedScale sigmaX sigmaY tauXY theta).

Lemma radius_nonneg : 0 <= MohrsCircle.R_ d.
Proof. apply sqrt_pos. Qed.

Lemma radius_square :
  MohrsCircle.R_ d * MohrsCircle.R_ d
  = MohrsCircle.diff d * MohrsCircle.diff d + tauXY * tauXY.
Proof.
  cbn [MohrsCircle.R_ MohrsCircle.diff MohrsCircle.derived].
  apply sqrt_sqrt.
  pose proof (Rle_0_sqr ((sigmaX - sigmaY) / 2)). pose proof (Rle_0_sqr tauXY).
  unfold Rsqr in *. lra.
Qed.

Lemma maxVal_bounds :
  1 <= MohrsCircle.maxVal sigmaX sigmaY tauXY
  /\ Rabs sigmaX <= MohrsCircle.maxVal sigmaX sigmaY tauXY
  /\ Rabs sigmaY <= MohrsCircle.maxVal sigmaX sigmaY tauXY
  /\ Rabs tauXY <= MohrsCircle.maxVal sigmaX sigmaY tauXY
  /\ Rabs (MohrsCircle.avg d) <= MohrsCircle.maxVal sigmaX sigmaY tauXY.
Proof.
  unfold MohrsCircle.maxVal, JS.max, JS.abs.
  cbn [MohrsCircle.avg MohrsCircle.derived].
  set (a := Rabs sigmaX). set (b := Rabs sigmaY). set (c := Rabs tauXY).
  pose proof (Rmax_l (Rmax (Rmax a b) c) 1).
  pose proof (Rmax_r (Rmax (Rmax a b) c) 1).
  pose proof (Rmax_l (Rmax a b) c). pose proof (Rmax_r (Rmax a b) c).
  pose proof (Rmax_l a b). pose proof (Rmax_r a b).
  assert (Rabs ((sigmaX + sigmaY) / 2) <= (a + b) / 2).
  { unfold a, b, Rabs.
    repeat match goal with
           | |- context [Rcase_abs ?x] => destruct (Rcase_abs x)
           end; lra. }
  repeat split; lra.
Qed.

Lemma scale_product :
  MohrsCircle.scale sigmaX sigmaY tauXY theta
  * (MohrsCircle.maxVal sigmaX sigmaY tauXY + MohrsCircle.R_ d + 10)
  = 330.
Proof.
  destruct maxVal_bounds as [H1 _]. pose proof radius_nonneg as Hr.
  unfold MohrsCircle.scale.
  set (m := MohrsCircle.maxVal sigmaX sigmaY tauXY) in *.
  set (r := MohrsCircle.R_ d) in *. clearbody m r.
  replace (JS.min MohrsCircle.W MohrsCircle.H / 2 - 80) with 330.
  - field. lra.
  - unfold JS.min, Rmin, MohrsCircle.W, MohrsCircle.H.
    destruct (Rle_dec 900 820); lra.
Qed.

Lemma clampedScale_range : 0.5 <= cs <= 8.
Proof.
  unfold MohrsCircle.clampedScale, JS.min, JS.max, Rmin, Rmax.
  destruct (Rle_dec _ 0.5); destruct (Rle_dec _ 8); lra.
Qed.

Lemma clampedScale_below_scale :
  0.5 <= MohrsCircle.scale sigmaX sigmaY tauXY theta ->
  cs <= MohrsCircle.scale sigmaX sigmaY tauXY theta.
Proof.
  intros H. unfold MohrsCircle.clampedScale, JS.min, JS.max, Rmin, Rmax.
  destruct (Rle_dec _ 0.5); destruct (Rle_dec _ 8); lra.
Qed.

Lemma default_range_scale :
  Rabs sigmaX <= 200 -> Rabs sigmaY <= 200 -> Rabs tauXY <= 200 ->
  0.5 <= MohrsCircle.scale sigmaX sigmaY tauXY theta.
Proof.
  intros Hx Hy Ht. pose proof scale_product as Hp.
  pose proof radius_nonneg as Hr. pose proof radius_square as Hsq.
  destruct maxVal_bounds as (H1 & _).
  assert (Hm : MohrsCircle.maxVal sigmaX sigmaY tauXY <= 200).
  { unfold MohrsCircle.maxVal, JS.max, JS.abs.
    repeat apply Rmax_lub; lra. }
  assert (Hd : Rabs (MohrsCircle.diff d) <= 200).
  { cbn [MohrsCircle.diff MohrsCircle.derived].
    revert Hx Hy. unfold Rabs.
    repeat match goal with
           | |- context [Rcase_abs ?x] => destruct (Rcase_abs x)
           end; lra. }
  set (r := MohrsCircle.R_ d) in *.
  set (df := MohrsCircle.diff d) in *.
  set (s := MohrsCircle.scale sigmaX sigmaY tauXY theta) in *.
  set (m := MohrsCircle.maxVal sigmaX sigmaY tauXY) in *.
  clearbody r df s m.
  assert (HR : r <= 283).
  { assert (df * df <= 200 * 200).
    { revert Hd. unfold Rabs. destruct (Rcase_abs df); intros; nra. }
    assert (tauXY * tauXY <= 200 * 200).
    { revert Ht. unfold Rabs. destruct (Rcase_abs tauXY); intros; nra. }
    nra. }
  nra.
Qed.

Lemma circle_box :
  0.5 <= MohrsCircle.scale sigmaX sigmaY tauXY theta ->
  120 < MohrsCircle.p2X sigmaX sigmaY tauXY theta
  /\ MohrsCircle.p1X sigmaX sigmaY tauXY theta < 780
  /\ 80 < MohrsCircle.topShearY sigmaX sigmaY tauXY theta
  /\ MohrsCircle.botShearY sigmaX sigmaY tauXY theta < 740.
Proof.
  intros Hs. pose proof (clampedScale_below_scale Hs) as Hc.
  pose proof clampedScale_range as Hcr. pose proof scale_product as Hp.
  pose proof radius_nonneg as Hr.
  destruct maxVal_bounds as (H1 & _ & _ & _ & Ha).
  unfold MohrsCircle.p2X, MohrsCircle.p1X, MohrsCircle.topShearY,
    MohrsCircle.botShearY, MohrsCircle.circleCX, MohrsCircle.circleCY,
    MohrsCircle.circleR, MohrsCircle.toSvgX, MohrsCircle.toSvgY,
    MohrsCircle.cx, MohrsCircle.cy, MohrsCircle.W, MohrsCircle.H.
  set (s := MohrsCircle.scale sigmaX sigmaY tauXY theta) in *.
  set (m := MohrsCircle.maxVal sigmaX sigmaY tauXY) in *.
  set (r := MohrsCircle.R_ d) in *. set (a := MohrsCircle.avg d) in *.
  set (c := cs) in *.
  clearbody s m r a c.
  assert (Hab : - m <= a <= m).
  { revert Ha. unfold Rabs. destruct (Rcase_abs a); lra. }
  assert (Hbound : (m + r) * c < 330).
  { assert ((m + r) * c <= (m + r) * s) by (apply Rmult_le_compat_l; lra).
    nra. }
  assert (Hrc : 0 <= r * c) by nra.
  assert (Hac : - (m * c) <= a * c <= m * c) by (split; nra).
  repeat split; nra.
Qed.

End CircleGeometry.

Lemma screen_box (v : MohrsCircle.viewport) (x y : R) :
  0 < MohrsCircle.zoom v ->
  (120 < x -> MohrsCircle.cx + MohrsCircle.panX v - 330 * MohrsCircle.zoom v
              < MohrsCircle.screenX v x)
  /\ (x < 780 -> MohrsCircle.screenX v x
                 < MohrsCircle.cx + MohrsCircle.panX v
                   + 330 * MohrsCircle.zoom v)
  /\ (80 < y -> MohrsCircle.cy + MohrsCircle.panY v - 330 * MohrsCircle.zoom v
                < MohrsCircle.screenY v y)
  /\ (y < 740 -> MohrsCircle.screenY v y
                 < MohrsCircle.cy + MohrsCircle.panY v
                   + 330 * MohrsCircle.zoom v).
Proof.
  intros Hz.
  unfold MohrsCircle.screenX, MohrsCircle.screenY, MohrsCircle.cx,
    MohrsCircle.cy, MohrsCircle.W, MohrsCircle.H.
  set (z := MohrsCircle.zoom v) in *. set (px := MohrsCircle.panX v).
  set (py := MohrsCircle.panY v). clearbody z px py.
  split; [| split; [| split]]; intros Hb.
  - assert (0 < z * (x - 120)) by (apply Rmult_lt_0_compat; lra). lra.
  - assert (0 < z * (780 - x)) by (apply Rmult_lt_0_compat; lra). lra.
  - assert (0 < z * (y - 80)) by (apply Rmult_lt_0_compat; lra). lra.
  - assert (0 < z * (740 - y)) by (apply Rmult_lt_0_compat; lra). lra.
Qed.

Lemma equal_biax_centre (theta : R) :
  MohrsCircle.circleCX 60 60 0 theta = 450 + 60 * (330 / 70).
Proof.
  assert (Hm : MohrsCircle.maxVal 60 60 0 = 60).
  { unfold MohrsCircle.maxVal, JS.max, JS.abs. rewrite Rabs_R0.
    rewrite (Rabs_pos_eq 60) by lra.
    rewrite (Rmax_left 60 60) by lra. rewrite (Rmax_left 60 0) by lra.
    apply Rmax_left. lra. }
  assert (Hr : MohrsCircle.R_ (MohrsCircle.derived 60 60 0 theta) = 0).
  { cbn [MohrsCircle.R_ MohrsCircle.derived].
    replace ((60 - 60) / 2 * ((60 - 60) / 2) + 0 * 0) with 0 by field.
    apply sqrt_0. }
  assert (Hs : MohrsCircle.scale 60 60 0 theta = 330 / 70).
  { unfold MohrsCircle.scale. rewrite Hm, Hr.
    unfold JS.min, Rmin, MohrsCircle.W, MohrsCircle.H.
    destruct (Rle_dec 900 820); [lra | field]. }
  unfold MohrsCircle.circleCX, MohrsCircle.toSvgX, MohrsCircle.clampedScale.
  rewrite Hs. cbn [MohrsCircle.avg MohrsCircle.derived].
  unfold MohrsCircle.cx, MohrsCircle.W, JS.min, JS.max.
  rewrite (Rmax_left (330 / 70) 0.5) by lra.
  rewrite (Rmin_left (330 / 70) 8) by lra. lra.
Qed.

(** X19. For stresses within the default slider range of [-200, 200] the
    automatic scale of the circle view is at least 0.5.  Whenever it is at
    least 0.5, the circle as it appears under the zoom and pan of the
    viewport stays within 330 times the zoom of the panned centre of the
    view box, in both directions; so after a reset (zoom 1, pan 0) the whole
    circle lies inside the 900 by 820 view box, between 120 and 780
    horizontally and between 80 and 740 vertically.  At the initial zoom
    1.6 that is not so: the centre of the circle of the state (60, 60, 0)
    appears to the right of the view box. *)
Theorem circle_fits_view_box (sigmaX sigmaY tauXY theta : R) :
  (Rabs sigmaX <= 200 /\ Rabs sigmaY <= 200 /\ Rabs tauXY <= 200 ->
   0.5 <= MohrsCircle.scale sigmaX sigmaY tauXY theta)
  /\ (0.5 <= MohrsCircle.scale sigmaX sigmaY tauXY theta ->
      forall v,
        0 < MohrsCircle.zoom v ->
        MohrsCircle.cx + MohrsCircle.panX v - 330 * MohrsCircle.zoom v
        < MohrsCircle.screenX v (MohrsCircle.p2X sigmaX sigmaY tauXY theta)
        /\ MohrsCircle.screenX v (MohrsCircle.p1X sigmaX sigmaY tauXY theta)
           < MohrsCircle.cx + MohrsCircle.panX v + 330 * MohrsCircle.zoom v
        /\ MohrsCircle.cy + MohrsCircle.panY v - 330 * MohrsCircle.zoom v
           < MohrsCircle.screenY v
               (MohrsCircle.topShearY sigmaX sigmaY tauXY theta)
        /\ MohrsCircle.screenY v
             (MohrsCircle.botShearY sigmaX sigmaY tauXY theta)
           < MohrsCircle.cy + MohrsCircle.panY v + 330 * MohrsCircle.zoom v)
  /\ (0.5 <= MohrsCircle.scale sigmaX sigmaY tauXY theta ->
      forall v,
        let r := MohrsCircle.handleDblClick v in
        120 < MohrsCircle.screenX r (MohrsCircle.p2X sigmaX sigmaY tauXY theta)
        /\ MohrsCircle.screenX r (MohrsCircle.p1X sigmaX sigmaY tauXY theta)
           < 780
        /\ 80 < MohrsCircle.screenY r
                  (MohrsCircle.topShearY sigmaX sigmaY tauXY theta)
        /\ MohrsCircle.screenY r
             (MohrsCircle.botShearY sigmaX sigmaY tauXY theta) < 740)
  /\ 900 < MohrsCircle.screenX MohrsCircle.initial
             (MohrsCircle.circleCX 60 60 0 theta).
Proof.
  split; [intros (Hx & Hy & Ht); now apply default_range_scale |].
  split; [| split].
  - intros Hs v Hz.
    destruct (circle_box sigmaX sigmaY tauXY theta Hs) as (H1 & H2 & H3 & H4).
    destruct (screen_box v (MohrsCircle.p2X sigmaX sigmaY tauXY theta)
                (MohrsCircle.topShearY sigmaX sigmaY tauXY theta) Hz)
      as (A1 & _ & A3 & _).
    destruct (screen_box v (MohrsCircle.p1X sigmaX sigmaY tauXY theta)
                (MohrsCircle.botShearY sigmaX sigmaY tauXY theta) Hz)
      as (_ & B2 & _ & B4).
    auto.
  - intros Hs v r.
    destruct (circle_box sigmaX sigmaY tauXY theta Hs) as (H1 & H2 & H3 & H4).
    unfold r, MohrsCircle.screenX, MohrsCircle.screenY,
      MohrsCircle.handleDblClick, MohrsCircle.W, MohrsCircle.H.
    cbn [MohrsCircle.zoom MohrsCircle.panX MohrsCircle.panY
         MohrsCircle.setPan MohrsCircle.setZoom].
    repeat split; lra.
  - rewrite equal_biax_centre.
    unfold MohrsCircle.screenX, MohrsCircle.initial, MohrsCircle.W.
    cbn [MohrsCircle.zoom MohrsCircle.panX]. lra.
Qed.

Lemma orElse_zero (x : R) : JS.orElse x 0 = x.
Proof. unfold JS.orElse. destruct (Req_dec_T x 0); lra. Qed.

Lemma alpha_A_polar (sigmaX sigmaY tauXY theta : R) :
  let d := MohrsCircle.derived sigmaX sigmaY tauXY theta in
  MohrsCircle.R_ d * cos (MohrsCircle.alpha_A sigmaX sigmaY tauXY theta)
  = MohrsCircle.diff d
  /\ MohrsCircle.R_ d * sin (MohrsCircle.alpha_A sigmaX sigmaY tauXY theta)
     = - tauXY.
Proof.
  unfold MohrsCircle.alpha_A. rewrite orElse_zero.
  cbn [MohrsCircle.R_ MohrsCircle.diff MohrsCircle.derived].
  set (diff := (sigmaX - sigmaY) / 2).
  replace (diff * diff + tauXY * tauXY)
    with (diff * diff + (- tauXY) * (- tauXY)) by ring.
  apply atan2_polar.
Qed.

(** X20. The fixed points of the circle are drawn where their stresses
    belong: point A at the stresses of the x face with the shear plotted
    downwards, P1 and P2 at the principal stresses on the horizontal axis,
    and the two shear points above and below the centre at the distance of
    the radius. *)
Theorem circle_points_plot_stresses (sigmaX sigmaY tauXY theta : R) :
  let d := MohrsCircle.derived sigmaX sigmaY tauXY theta in
  let X := MohrsCircle.toSvgX sigmaX sigmaY tauXY theta in
  let Y := MohrsCircle.toSvgY sigmaX sigmaY tauXY theta in
  MohrsCircle.aX sigmaX sigmaY tauXY theta = X sigmaX
  /\ MohrsCircle.aY sigmaX sigmaY tauXY theta = Y (- tauXY)
  /\ MohrsCircle.p1X sigmaX sigmaY tauXY theta = X (MohrsCircle.s1 d)
  /\ MohrsCircle.p1Y sigmaX sigmaY tauXY theta = Y 0
  /\ MohrsCircle.p2X sigmaX sigmaY tauXY theta = X (MohrsCircle.s2 d)
  /\ MohrsCircle.p2Y sigmaX sigmaY tauXY theta = Y 0
  /\ MohrsCircle.topShearX sigmaX sigmaY tauXY theta = X (MohrsCircle.avg d)
  /\ MohrsCircle.topShearY sigmaX sigmaY tauXY theta = Y (MohrsCircle.R_ d)
  /\ MohrsCircle.botShearX sigmaX sigmaY tauXY theta = X (MohrsCircle.avg d)
  /\ MohrsCircle.botShearY sigmaX sigmaY tauXY theta
     = Y (- MohrsCircle.R_ d).
Proof.
  intros d X Y. subst X Y.
  destruct (alpha_A_polar sigmaX sigmaY tauXY theta) as [Hc Hs].
  fold d in Hc, Hs.
  unfold MohrsCircle.aX, MohrsCircle.aY, MohrsCircle.p1X, MohrsCircle.p1Y,
    MohrsCircle.p2X, MohrsCircle.p2Y, MohrsCircle.topShearX,
    MohrsCircle.topShearY, MohrsCircle.botShearX, MohrsCircle.botShearY,
    MohrsCircle.circleCX, MohrsCircle.circleCY, MohrsCircle.circleR,
    MohrsCircle.toSvgX, MohrsCircle.toSvgY.
  fold d.
  set (cs := MohrsCircle.clampedScale sigmaX sigmaY tauXY theta).
  set (al := MohrsCircle.alpha_A sigmaX sigmaY tauXY theta) in *.
  assert (Ex : MohrsCircle.R_ d * cs * cos al = MohrsCircle.diff d * cs)
    by (rewrite <- Hc; ring).
  assert (Ey : MohrsCircle.R_ d * cs * sin al = - tauXY * cs)
    by (rewrite <- Hs; ring).
  rewrite Ex, Ey.
  unfold d. cbn [MohrsCircle.avg MohrsCircle.diff MohrsCircle.s1
                 MohrsCircle.s2 MohrsCircle.R_ MohrsCircle.derived].
  repeat split; try ring. field.
Qed.

(** X21. The live point lies on the circle and starts at point A; it is
    drawn where the transformed stresses of the opposite rotation, by minus
    theta, plot with the shear downwards.  The conjugate point is the
    reflection of the live point through the centre. *)
Theorem live_point_position (sigmaX sigmaY tauXY theta : R) :
  let back := MohrsCircle.derived sigmaX sigmaY tauXY (- theta) in
  let X := MohrsCircle.toSvgX sigmaX sigmaY tauXY theta in
  let Y := MohrsCircle.toSvgY sigmaX sigmaY tauXY theta in
  let dx := MohrsCircle.pointX sigmaX sigmaY tauXY theta
            - MohrsCircle.circleCX sigmaX sigmaY tauXY theta in
  let dy := MohrsCircle.pointY sigmaX sigmaY tauXY theta
            - MohrsCircle.circleCY sigmaX sigmaY tauXY theta in
  MohrsCircle.pointX sigmaX sigmaY tauXY theta = X (MohrsCircle.sx_prime back)
  /\ MohrsCircle.pointY sigmaX sigmaY tauXY theta
     = Y (- MohrsCircle.txy_prime back)
  /\ dx * dx + dy * dy
     = MohrsCircle.circleR sigmaX sigmaY tauXY theta
       * MohrsCircle.circleR sigmaX sigmaY tauXY theta
  /\ MohrsCircle.conjX sigmaX sigmaY tauXY theta
     - MohrsCircle.circleCX sigmaX sigmaY tauXY theta = - dx
  /\ MohrsCircle.conjY sigmaX sigmaY tauXY theta
     - MohrsCircle.circleCY sigmaX sigmaY tauXY theta = - dy
  /\ MohrsCircle.pointX sigmaX sigmaY tauXY 0
     = MohrsCircle.aX sigmaX sigmaY tauXY 0
  /\ MohrsCircle.pointY sigmaX sigmaY tauXY 0
     = MohrsCircle.aY sigmaX sigmaY tauXY 0.
Proof.
  intros back X Y dx dy. subst back X Y dx dy.
  destruct (alpha_A_polar sigmaX sigmaY tauXY theta) as [Hc Hs].
  cbv zeta in Hc, Hs.
  unfold MohrsCircle.pointX, MohrsCircle.pointY, MohrsCircle.conjX,
    MohrsCircle.conjY, MohrsCircle.aX, MohrsCircle.aY, MohrsCircle.liveAngle,
    MohrsCircle.angle2, MohrsCircle.circleCX, MohrsCircle.circleCY,
    MohrsCircle.circleR, MohrsCircle.toSvgX, MohrsCircle.toSvgY.
  rewrite !neg_cos, !neg_sin.
  replace (MohrsCircle.toRad (2 * 0)) with 0
    by (unfold MohrsCircle.toRad; field).
  rewrite !Rminus_0_r.
  rewrite cos_minus, sin_minus.
  set (cs := MohrsCircle.clampedScale sigmaX sigmaY tauXY theta).
  set (al := MohrsCircle.alpha_A sigmaX sigmaY tauXY theta) in *.
  set (phi := MohrsCircle.toRad (2 * theta)).
  cbn [MohrsCircle.sx_prime MohrsCircle.txy_prime MohrsCircle.avg
       MohrsCircle.R_ MohrsCircle.diff MohrsCircle.derived] in *.
  replace (MohrsCircle.toRad (2 * - theta)) with (- phi)
    by (unfold phi, MohrsCircle.toRad; field).
  rewrite cos_neg, sin_neg.
  set (r := sqrt ((sigmaX - sigmaY) / 2 * ((sigmaX - sigmaY) / 2)
                  + tauXY * tauXY)) in *.
  set (diff := (sigmaX - sigmaY) / 2) in *.
  pose proof (sin2_cos2 al) as Hal. pose proof (sin2_cos2 phi) as Hphi.
  unfold Rsqr in Hal, Hphi.
  set (ca := cos al) in *. set (sa := sin al) in *.
  set (cp := cos phi) in *. set (sp := sin phi) in *.
  clearbody ca sa cp sp r cs diff.
  assert (Et : tauXY = - (r * sa)) by lra.
  assert (Ed : diff = r * ca) by lra.
  split; [rewrite Ed, Et; ring |].
  split; [rewrite Ed, Et; ring |].
  split.
  { match goal with
    | |- ?l = _ =>
        replace l with (r * cs * (r * cs)
                        * ((sa * sa + ca * ca) * (sp * sp + cp * cp))) by ring
    end.
    rewrite Hal, Hphi. ring. }
  repeat split; ring.
Qed.

Lemma atan2_nonneg_iff (y x : R) : 0 <= JS.atan2 y x <-> 0 <= y.
Proof.
  pose proof PI_RGT_0 as Hpi. unfold JS.atan2.
  destruct (Rlt_dec 0 x) as [Hx | Hx].
  - assert (Hi : 0 < / x) by now apply Rinv_0_lt_compat.
    split; intros H.
    + destruct (Rle_lt_dec 0 y) as [Hy | Hy]; [exact Hy |].
      assert (Hq : y / x < 0) by (unfold Rdiv; nra).
      apply atan_increasing in Hq. rewrite atan_0 in Hq. lra.
    + destruct H as [H | <-].
      * assert (Hq : 0 < y / x) by (unfold Rdiv; nra).
        apply atan_increasing in Hq. rewrite atan_0 in Hq. lra.
      * unfold Rdiv. rewrite Rmult_0_l, atan_0. lra.
  - destruct (Rlt_dec x 0) as [Hx' | Hx'].
    + pose proof (atan_bound (y / x)).
      destruct (Rle_dec 0 y); split; intros; lra.
    + destruct (Rlt_dec 0 y); [split; intros; lra |].
      destruct (Rlt_dec y 0); split; intros; lra.
Qed.

(** X22. The principal angle of the circle view lies in [[-90, 90]], so the
    arc that depicts twice that angle never takes the large-arc flag; the
    second principal angle lies in [[0, 180]] and the shear angle in
    [[-135, 45]].  The sweep flag of that arc is clear for a positive shear
    stress and set for a negative one; for zero shear it depends on the sign
    of the zero, which the number model does not have. *)
Theorem principal_arc_flags (sigmaX sigmaY tauXY theta : R) :
  let d := MohrsCircle.derived sigmaX sigmaY tauXY theta in
  - 90 <= MohrsCircle.thetaP1 d <= 90
  /\ 0 <= MohrsCircle.thetaP2 d <= 180
  /\ - 135 <= MohrsCircle.thetaS1 d <= 45
  /\ MohrsCircle.arcP_large sigmaX sigmaY tauXY theta = false
  /\ (0 < tauXY -> MohrsCircle.arcP_sweep sigmaX sigmaY tauXY theta = false)
  /\ (tauXY < 0 -> MohrsCircle.arcP_sweep sigmaX sigmaY tauXY theta = true).
Proof.
  intros d. pose proof PI_RGT_0 as Hpi.
  assert (Hr : - 90 < MohrsCircle.thetaP1 d <= 90).
  { unfold d. rewrite thetaP1_eq_principalAngle. apply principalAngle_range. }
  assert (Hs : 0 <= MohrsCircle.thetaP1 d <-> 0 <= tauXY).
  { unfold d. cbn [MohrsCircle.thetaP1 MohrsCircle.derived].
    rewrite <- (atan2_nonneg_iff tauXY ((sigmaX - sigmaY) / 2)).
    set (a := JS.atan2 tauXY ((sigmaX - sigmaY) / 2)).
    assert (E : a * 180 / PI / 2 = a * (90 / PI)) by (field; lra).
    rewrite E. assert (Hk : 0 < 90 / PI).
    { unfold Rdiv. apply Rmult_lt_0_compat; [lra |].
      now apply Rinv_0_lt_compat. }
    split; intros; nra. }
  split; [lra |].
  split; [change (MohrsCircle.thetaP2 d) with (MohrsCircle.thetaP1 d + 90); lra |].
  split; [change (MohrsCircle.thetaS1 d) with (MohrsCircle.thetaP1 d - 45); lra |].
  split.
  { unfold MohrsCircle.arcP_large. fold d. unfold JS.gtb.
    apply ltb_false_iff. unfold JS.abs, Rabs.
    destruct (Rcase_abs _); lra. }
  unfold MohrsCircle.arcP_sweep. fold d.
  destruct (JS.geb (MohrsCircle.thetaP1 d) 0) eqn:E.
  - unfold JS.geb in E. apply leb_true_iff in E. apply Hs in E.
    split; [reflexivity | intros; lra].
  - assert (Hn : ~ 0 <= MohrsCircle.thetaP1 d).
    { intros H. apply leb_true_iff in H. unfold JS.geb in E. congruence. }
    split; [| reflexivity].
    intros Ht. exfalso. apply Hn. apply Hs. lra.
Qed.

(** ** The parameter sliders *)

Section Sliders.

Variable parseFloat : string -> option R.

Lemma merge_range_edit (p : App.param) (f : ParameterSlider.field)
    (raw : string) (q : App.patch) :
  Spec.wellFormed p ->
  ParameterSlider.handleRangeChange parseFloat (App.value p) (App.min p)
    (App.max p) f raw = Some q ->
  Spec.wellFormed (App.merge p q).
Proof.
  intros (Hlt & Hlo & Hhi). unfold ParameterSlider.handleRangeChange.
  destruct (parseFloat raw) as [parsed |]; [| discriminate].
  destruct f.
  - destruct (JS.ltb parsed (App.max p)) eqn:E; [| discriminate].
    apply ltb_true_iff in E. intros [= <-].
    unfold Spec.wellFormed, App.merge. simpl.
    unfold JS.max, Rmax. destruct (Rle_dec _ _); lra.
  - destruct (JS.gtb parsed (App.min p)) eqn:E; [| discriminate].
    apply gtb_true_iff in E. intros [= <-].
    unfold Spec.wellFormed, App.merge. simpl.
    unfold JS.min, Rmin. destruct (Rle_dec _ _); lra.
Qed.

Lemma update_well_formed (k : App.key) (q : App.patch) (ps : App.params) :
  Spec.allWellFormed ps ->
  Spec.wellFormed (App.merge (App.lookup k ps) q) ->
  Spec.allWellFormed (App.update k q ps).
Proof.
  intros (Hx & Hy & Ht) Hm. destruct k; simpl in *;
    unfold Spec.allWellFormed; simpl; auto.
Qed.

Lemma preset_well_formed (p : App.preset) :
  In p App.PRESETS -> Spec.allWellFormed (fst (App.applyPreset p)).
Proof.
  intros Hin. simpl in Hin.
  repeat destruct Hin as [<- | Hin]; try contradiction;
    unfold Spec.allWellFormed, Spec.wellFormed; simpl; lra.
Qed.

Lemma handle_well_formed (e : ParameterSlider.event) (ps : App.params) :
  Spec.allWellFormed ps -> Spec.admissible ps e ->
  Spec.allWellFormed (ParameterSlider.handle parseFloat e ps).
Proof.
  intros Hw Ha. destruct e as [k f raw | k v | p]; simpl in *.
  - destruct (ParameterSlider.handleRangeChange parseFloat _ _ _ f raw)
      as [q |] eqn:E; [| exact Hw].
    apply update_well_formed; [exact Hw |].
    apply (merge_range_edit _ f raw); [| exact E].
    destruct Hw as (Hx & Hy & Ht). now destruct k.
  - apply update_well_formed; [exact Hw |].
    assert (Hp : Spec.wellFormed (App.lookup k ps))
      by (destruct Hw as (Hx & Hy & Ht); now destruct k).
    destruct Hp as (Hlt & _).
    unfold Spec.wellFormed, App.merge, ParameterSlider.sliderChange. simpl.
    lra.
  - now apply preset_well_formed.
Qed.

Lemma pct_range (p : App.param) :
  Spec.wellFormed p ->
  0 <= ParameterSlider.pct (App.value p) (App.min p) (App.max p) <= 100.
Proof.
  intros (Hlt & Hv). unfold ParameterSlider.pct.
  pose proof (ratio_bounds _ _ _ Hlt Hv). lra.
Qed.

End Sliders.

(** X23. Every parameter state that [App] can reach from [INITIAL] through
    preset buttons, slider moves and edits of the slider bounds keeps, for
    each of the three parameters, the lower bound strictly below the upper
    bound and the value between them; hence the fill width of every slider
    is a percentage between 0 and 100. *)
Theorem slider_parameters_stay_well_formed
    (parseFloat : string -> option R) (ps : App.params) :
  Spec.reachable parseFloat ps ->
  Spec.allWellFormed ps
  /\ forall k,
       0 <= ParameterSlider.pct (App.value (App.lookup k ps))
              (App.min (App.lookup k ps)) (App.max (App.lookup k ps))
         <= 100.
Proof.
  intros Hr.
  assert (Hw : Spec.allWellFormed ps).
  { induction Hr as [| ps e _ IH Ha].
    - unfold Spec.allWellFormed, Spec.wellFormed. simpl. lra.
    - now apply handle_well_formed. }
  split; [exact Hw |].
  intros k. apply pct_range. destruct Hw as (Hx & Hy & Ht). now destruct k.
Qed.

Lemma slider_parameters_stay_well_formed_witness :
  let parseFloat := fun raw : string =>
                      if String.eqb raw "90"%string then Some 90 else None in
  let ps := ParameterSlider.handle parseFloat
              (ParameterSlider.RangeEdit App.KeySigmaX
                 ParameterSlider.FieldMin "90"%string)
              App.INITIAL in
  Spec.reachable parseFloat ps
  /\ Spec.allWellFormed ps
  /\ forall k,
       0 <= ParameterSlider.pct (App.value (App.lookup k ps))
              (App.min (App.lookup k ps)) (App.max (App.lookup k ps))
         <= 100.
Proof.
  intros parseFloat ps.
  assert (Hr : Spec.reachable parseFloat ps).
  { unfold ps. apply Spec.reach_step; [apply Spec.reach_initial | exact I]. }
  split; [exact Hr |].
  exact (slider_parameters_stay_well_formed parseFloat ps Hr).
Defined.

(** ** Where the markers are drawn *)

Lemma markersOf_In (xS yS : R -> R) (tp : list StressGraph.point) :
  forall sp m,
    In m (Spec.markersOf xS yS sp tp) ->
    exists a b s0 s1,
      In a tp /\ In b tp /\ StressGraph.crosses a b = true
      /\ m = {| StressGraph.mx := xS (StressGraph.tCrossOf a b);
                StressGraph.my :=
                  yS (StressGraph.sValOf s0 s1 (StressGraph.tCrossOf a b)) |}.
Proof.
  induction tp as [| a tp IH]; intros sp m Hin; [contradiction |].
  destruct sp as [| s0 sp]; [contradiction |].
  destruct tp as [| b tp]; [contradiction |].
  destruct sp as [| s1 sp]; [contradiction |].
  rewrite markersOf_cons2 in Hin. apply in_app_or in Hin.
  destruct Hin as [Hin | Hin].
  - destruct (StressGraph.crosses a b) eqn:E; [| contradiction].
    destruct Hin as [<- | []].
    exists a, b, s0, s1. repeat split; simpl; auto.
  - destruct (IH _ _ Hin) as (a' & b' & s0' & s1' & Ha & Hb & Hc & Em).
    exists a', b', s0', s1'. repeat split; try assumption; now right.
Qed.

Lemma markersOf_length (xS yS : R -> R) (tp : list StressGraph.point) :
  forall sp,
    (List.length (Spec.markersOf xS yS sp tp) <= List.length tp - 1)%nat.
Proof.
  induction tp as [| a tp IH]; intros sp; [simpl; lia |].
  destruct sp as [| s0 sp]; [simpl; lia |].
  destruct tp as [| b tp]; [simpl; lia |].
  destruct sp as [| s1 sp]; [simpl; lia |].
  rewrite markersOf_cons2, length_app. specialize (IH (s1 :: sp)).
  destruct (StressGraph.crosses a b); simpl in *; lia.
Qed.

Lemma tCross_inside (a b : StressGraph.point) (lo hi : R) :
  StressGraph.crosses a b = true ->
  lo <= StressGraph.theta a <= hi -> lo <= StressGraph.theta b <= hi ->
  lo <= StressGraph.tCrossOf a b <= hi.
Proof.
  intros Hc Ha Hb. destruct (crossing_fraction a b Hc) as [Hf _].
  unfold StressGraph.tCrossOf. fold (Spec.fraction a b).
  set (f := Spec.fraction a b) in *. clearbody f. split; nra.
Qed.

(** X24. For ordered bounds and at least one step, the marker search on the
    curves of [computeCurves] reports at most [steps] markers, and each of
    them is drawn between the left and the right border of the plot. *)
Theorem markers_drawn_inside_plot
    (sigmaX sigmaY tauXY thetaMin thetaMax W : R) (yS : R -> R)
    (steps : nat) :
  thetaMin < thetaMax -> (1 <= steps)%nat -> 0 <= StressGraph.plotW W ->
  exists c ms,
    StressGraph.computeCurves sigmaX sigmaY tauXY thetaMin thetaMax steps
    = JS.Normal c
    /\ StressGraph.principalMarkers
         (StressGraph.xScale StressGraph.padL thetaMin thetaMax
            (StressGraph.plotW W))
         yS (StressGraph.sigmaPoints c) (StressGraph.tauPoints c)
       = JS.Normal ms
    /\ (List.length ms <= steps)%nat
    /\ forall m, In m ms ->
         StressGraph.padL <= StressGraph.mx m
         <= StressGraph.padL + StressGraph.plotW W.
Proof.
  intros Hr Hs Hw. unfold StressGraph.computeCurves.
  match goal with
  | |- exists c ms, JS.Normal ?v = JS.Normal c /\ _ => set (curves := v)
  end.
  exists curves. eexists. split; [reflexivity |].
  split; [apply principalMarkers_markersOf; unfold curves; simpl;
          now rewrite !length_map |].
  split.
  - eapply Nat.le_trans; [apply markersOf_length |].
    unfold curves. cbn [StressGraph.tauPoints].
    rewrite length_map, length_seq. lia.
  - intros m Hm. apply markersOf_In in Hm.
    destruct Hm as (a & b & s0 & s1 & Ha & Hb & Hc & ->).
    cbn [StressGraph.mx].
    assert (Hin : forall p, In p (StressGraph.tauPoints curves) ->
                    thetaMin <= StressGraph.theta p <= thetaMax).
    { intros p Hp. unfold curves in Hp. cbn [StressGraph.tauPoints] in Hp.
      apply in_map_iff in Hp. destruct Hp as (i & <- & Hi).
      apply in_seq in Hi. cbn [StressGraph.theta].
      apply sampleTheta_inside; try assumption; lia. }
    apply xScale_inside; [exact Hr | exact Hw |].
    apply tCross_inside; auto.
Qed.

Lemma markers_drawn_inside_plot_witness :
  0 < 180 /\ (1 <= 2)%nat /\ 0 <= StressGraph.plotW 800
  /\ exists c ms,
       StressGraph.computeCurves 80 (-40) 50 0 180 2 = JS.Normal c
       /\ StressGraph.principalMarkers
            (StressGraph.xScale StressGraph.padL 0 180 (StressGraph.plotW 800))
            (fun y => y) (StressGraph.sigmaPoints c) (StressGraph.tauPoints c)
          = JS.Normal ms
       /\ (List.length ms <= 2)%nat
       /\ forall m, In m ms ->
            StressGraph.padL <= StressGraph.mx m
            <= StressGraph.padL + StressGraph.plotW 800.
Proof.
  assert (Hw : 0 <= StressGraph.plotW 800).
  { unfold StressGraph.plotW, StressGraph.padL, StressGraph.padR. lra. }
  split; [lra |]. split; [lia |]. split; [exact Hw |].
  apply (markers_drawn_inside_plot 80 (-40) 50 0 180 800 (fun y => y) 2);
    [lra | lia | exact Hw].
Defined.

(** ** Normalisation and pressure *)

Section NormalizeInDoubles.

Import PrimFloat.

(** In doubles the sum inside the normalisation is rounded: 0.1 comes back
    as 0.09999999999999432, and both the largest double below 180 and 1e-20
    come back as 0. *)
Lemma normalize180_rounds_in_doubles :
  Doubles.normalize180 0.1%float = Some 0x1.99999999998p-4%float
  /\ eqb 0x1.99999999998p-4%float 0.1%float = false
  /\ Doubles.normalize180 0x1.67fffffffffffp+7%float = Some 0%float
  /\ Doubles.normalize180 1e-20%float = Some 0%float.
Proof. repeat split; vm_compute; reflexivity. Qed.

(** X25. In exact real arithmetic the normalisation applied by
    [getPrincipalAngles] leaves angles in [[0, 180)] unchanged, is
    idempotent, and does not distinguish angles that differ by a multiple of
    180 degrees.  In the doubles of the source the first of these laws does
    not hold, because the sum inside is rounded: 0.1 is mapped to
    0.09999999999999432, and the largest double below 180 and 1e-20 are
    mapped to 0. *)
Theorem normalize180_canonical (a : R) (k : Z) :
  (0 <= a < 180 -> App.normalize180 a = a)
  /\ App.normalize180 (App.normalize180 a) = App.normalize180 a
  /\ App.normalize180 (a + 180 * IZR k) = App.normalize180 a
  /\ (Doubles.normalize180 0.1%float = Some 0x1.99999999998p-4%float
      /\ eqb 0x1.99999999998p-4%float 0.1%float = false
      /\ Doubles.normalize180 0x1.67fffffffffffp+7%float = Some 0%float
      /\ Doubles.normalize180 1e-20%float = Some 0%float).
Proof.
  pose proof (normalize180_range a) as Hr.
  destruct (normalize180_congr a) as [k0 E0].
  split; [| split; [| split]].
  - intros Ha. apply (normalize180_eq a a 0); [exact Ha | lra].
  - apply (normalize180_eq _ _ 0); [exact Hr | lra].
  - apply (normalize180_eq _ _ (k0 - k)); [exact Hr |].
    rewrite minus_IZR. lra.
  - exact normalize180_rounds_in_doubles.
Qed.

End NormalizeInDoubles.

(** X26. In exact real arithmetic (in doubles up to rounding in the last
    digits): adding the same pressure to both normal stresses moves the two
    principal stresses of the sidebar by that pressure and changes neither
    the maximum shear nor the principal angles. *)
Theorem pressure_shifts_principal_stresses (sigmaX sigmaY tauXY p : R) :
  App.getMaxShear (sigmaX + p) (sigmaY + p) tauXY
  = App.getMaxShear sigmaX sigmaY tauXY
  /\ App.getPrincipalAngles (sigmaX + p) (sigmaY + p) tauXY
     = App.getPrincipalAngles sigmaX sigmaY tauXY
  /\ (sigmaX + p + (sigmaY + p)) / 2
     + App.getMaxShear (sigmaX + p) (sigmaY + p) tauXY
     = (sigmaX + sigmaY) / 2 + App.getMaxShear sigmaX sigmaY tauXY + p
  /\ (sigmaX + p + (sigmaY + p)) / 2
     - App.getMaxShear (sigmaX + p) (sigmaY + p) tauXY
     = (sigmaX + sigmaY) / 2 - App.getMaxShear sigmaX sigmaY tauXY + p.
Proof.
  assert (Ed : sigmaX + p - (sigmaY + p) = sigmaX - sigmaY) by ring.
  assert (Em : App.getMaxShear (sigmaX + p) (sigmaY + p) tauXY
               = App.getMaxShear sigmaX sigmaY tauXY).
  { unfold App.getMaxShear. now rewrite Ed. }
  split; [exact Em |]. split.
  - unfold App.getPrincipalAngles, App.principalAngle. now rewrite Ed.
  - rewrite Em. split; lra.
Qed.
